(** * FrogFS: a shallow embedding of the read-only filesystem runtime

    The development follows [src/frogfs.c].  The image is a flat,
    immutable blob; pointers into it are modelled as byte offsets from
    the image base ([fs->head]), and the records found at those offsets
    are Rocq records.  Every C integer is a [Z]; arithmetic whose C type
    can wrap has the wrap-around written out. *)

From Stdlib Require Import ZArith String Ascii List Bool Lia.
From stdpp Require Import base option list gmap.

Local Open Scope string_scope.
Local Open Scope Z_scope.

(** ** Outcomes of a run

    A C function either returns, reads outside the modelled image
    (undefined behaviour, [Fault]), or is still looping when the model's
    fuel is used up ([OutOfFuel]). *)

Inductive run (A : Type) : Type :=
| Done (a : A)
| Fault
| OutOfFuel.

Arguments Done {A} a.
Arguments Fault {A}.
Arguments OutOfFuel {A}.

Definition run_bind {A B : Type} (m : run A) (k : A -> run B) : run B :=
  match m with
  | Done a => k a
  | Fault => Fault
  | OutOfFuel => OutOfFuel
  end.

Notation "'do' x <- m ; k" := (run_bind m (fun x => k))
  (at level 10, x name, m at level 100, k at level 200,
   format "'[v' 'do'  x  <-  m ; '/' k ']'").

Definition load {A : Type} (o : option A) : run A :=
  match o with
  | Some a => Done a
  | None => Fault
  end.

(** ** C implementation parameters

    [char] may be signed or unsigned and [unsigned long] is 32 or 64 bits
    wide, depending on the target ABI. *)

Inductive long_model : Type := LONG32 | LONG64.

Definition long_bits (m : long_model) : Z :=
  match m with
  | LONG32 => 32
  | LONG64 => 64
  end.

Record c_abi : Type := {
  char_signed : bool;
  ulong_model : long_model
}.

Definition ulong_bits (abi : c_abi) : Z := long_bits (ulong_model abi).

Definition to_uint16 (x : Z) : Z := x mod 2 ^ 16.
Definition to_uint32 (x : Z) : Z := x mod 2 ^ 32.
Definition to_ulong (abi : c_abi) (x : Z) : Z := x mod 2 ^ ulong_bits abi.

(** Conversion of an out-of-range value to [int] (two's complement, as
    every supported compiler does). *)
Definition to_int (x : Z) : Z :=
  let y := x mod 2 ^ 32 in
  if y <? 2 ^ 31 then y else y - 2 ^ 32.

(** ** Bytes and C strings

    A [string] stands for the bytes found at a [char *]; the C string
    ends at the first NUL byte, or at the end of the Rocq string, where
    the terminator is implicit. *)

Definition byte_val (c : ascii) : Z := Z.of_N (N_of_ascii c).

Definition is_nul (c : ascii) : bool := byte_val c =? 0.

(** The value of [*s] for [const char *s], after integer promotion. *)
Definition char_val (abi : c_abi) (c : ascii) : Z :=
  let u := byte_val c in
  if char_signed abi && (128 <=? u) then u - 256 else u.

Fixpoint c_str (s : string) : string :=
  match s with
  | EmptyString => EmptyString
  | String c s' => if is_nul c then EmptyString else String c (c_str s')
  end.

Fixpoint str_bytes (s : string) : list Z :=
  match s with
  | EmptyString => []
  | String c s' => byte_val c :: str_bytes s'
  end.

(** [strcmp]: zero exactly when both C strings hold the same bytes; the
    sign of a non-zero result follows the first differing byte. *)
Fixpoint strcmp (a b : string) : Z :=
  match a, b with
  | EmptyString, EmptyString => 0
  | EmptyString, String y _ => if is_nul y then 0 else -1
  | String x _, EmptyString => if is_nul x then 0 else 1
  | String x a', String y b' =>
      if byte_val x =? byte_val y
      then (if is_nul x then 0 else strcmp a' b')
      else (if byte_val x <? byte_val y then -1 else 1)
  end.

(** ** String hashing function *)

Section Hash.
Variable abi : c_abi.

(** [hash = ((hash << 5) + hash) ^ *s++] on [unsigned long]. *)
Definition djb2_step (hash : Z) (c : ascii) : Z :=
  Z.lxor (to_ulong abi (to_ulong abi (Z.shiftl hash 5) + hash))
         (to_ulong abi (char_val abi c)).

Fixpoint djb2_loop (s : string) (hash : Z) : Z :=
  match s with
  | EmptyString => hash
  | String c s' => if is_nul c then hash else djb2_loop s' (djb2_step hash c)
  end.

(** The [unsigned long] accumulator is returned as [uint32_t]. *)
Definition djb2_hash (s : string) : Z := to_uint32 (djb2_loop s 5381).
End Hash.

(** The hash as the format document words it: [h := 5381], then for each
    byte [b], [h := ((h << 5) + h) XOR b] with 32-bit wrap-around, [b]
    being the unsigned byte value. *)
Definition djb2_xor (bytes : list Z) : Z :=
  fold_left (fun h b => Z.lxor (to_uint32 (Z.shiftl h 5 + h)) b) bytes 5381.

Definition abi_esp32 : c_abi := {| char_signed := false; ulong_model := LONG32 |}.
Definition abi_x86_64 : c_abi := {| char_signed := true; ulong_model := LONG64 |}.
Definition abi_i386 : c_abi := {| char_signed := true; ulong_model := LONG32 |}.

(** ** On-disk records

    [frogfs_format.h] is not part of the source tree; the records below
    carry the fields [frogfs.c] reads, under the names it uses.  Offsets
    ([offs], [parent], [children], [data_offs]) are relative to the image
    base. *)

Record frogfs_head_t : Type := {
  head_magic : Z;
  head_ver_major : Z;
  head_ver_minor : Z;
  head_num_entries : Z;
  head_binary_length : Z
}.

Record frogfs_hash_t : Type := {
  he_hash : Z;
  he_offs : Z
}.

(** The two entry types [frogfs_stat] reports. *)
Inductive frogfs_entry_type_t : Type :=
| FROGFS_ENTRY_TYPE_DIR
| FROGFS_ENTRY_TYPE_FILE.

(** One record for [frogfs_entry_t] and the layouts that extend it
    ([frogfs_dir_t], [frogfs_file_t], [frogfs_comp_t]): the code reads an
    entry through casts to these, chosen by the tag and by
    [compression]. [e_name] holds the bytes found at
    [frogfs_get_name(entry)]. *)
Record frogfs_entry_t : Type := {
  e_type : frogfs_entry_type_t;
  e_compression : Z;
  e_seg_sz : Z;
  e_parent : Z;
  e_child_count : Z;
  e_children : list Z;
  e_data_offs : Z;
  e_data_sz : Z;
  e_real_sz : Z;
  e_name : string
}.

(** Modelled from the spec: the macros [FROGFS_IS_DIR] and
    [FROGFS_IS_FILE] of [frogfs_format.h] are missing; the format gives
    every entry a type tag that is either directory or file ([e_type]),
    and the macros test it. *)
Definition FROGFS_IS_DIR (e : frogfs_entry_t) : bool :=
  match e_type e with
  | FROGFS_ENTRY_TYPE_DIR => true
  | FROGFS_ENTRY_TYPE_FILE => false
  end.

Definition FROGFS_IS_FILE (e : frogfs_entry_t) : bool :=
  match e_type e with
  | FROGFS_ENTRY_TYPE_DIR => false
  | FROGFS_ENTRY_TYPE_FILE => true
  end.

(** The mapped binary: header, the hash records that follow it, and the
    entry records by offset. *)
Record image : Type := {
  img_head : frogfs_head_t;
  img_hash : list frogfs_hash_t;
  img_entries : gmap Z frogfs_entry_t
}.

Record frogfs_fs_t : Type := {
  fs_head : image;
  fs_hash : Z;
  fs_root : Z;
  fs_num_entries : Z
}.

Record frogfs_config_t : Type := {
  conf_addr : option image;
  conf_part_label : option string
}.

(** What [esp_partition_find_first] followed by [esp_partition_mmap]
    gives for a label. *)
Inductive partition_result : Type :=
| PartitionMissing
| PartitionMmapFailed
| PartitionMapped (img : image).

(** Constants of the build: [frogfs_format.h], [frogfs/frogfs.h],
    [frogfs_config.h] and [limits.h] are not part of the source tree, so
    the values they define are parameters of the model. *)
Record build_config : Type := {
  abi : c_abi;
  PATH_MAX : Z;
  ESP_PLATFORM : bool;
  FROGFS_MAGIC : Z;
  FROGFS_VER_MAJOR : Z;
  sizeof_frogfs_head_t : Z;
  FROGFS_OPEN_RAW : Z;
  CONFIG_FROGFS_USE_DEFLATE : bool;
  CONFIG_FROGFS_USE_HEATSHRINK : bool
}.

Definition sizeof_frogfs_hash_t : Z := 8.

(** Modelled from the spec: the compression tags of [frogfs_format.h],
    which is missing; the format gives 0 = none, 1 = DEFLATE,
    2 = Heatshrink. *)
Definition FROGFS_COMP_ALGO_DEFLATE : Z := 1.
Definition FROGFS_COMP_ALGO_HEATSHRINK : Z := 2.

(** ** Binding an image *)

(** [frogfs_init] returns [NULL] on every failure; the constructor tells
    which [LOGE] line was reached.  Allocation ([calloc]) is taken to
    succeed, here and in [frogfs_open] and [frogfs_opendir]. *)
Inductive init_error : Type :=
| INIT_NO_ADDR          (* flash mmap not enabled and addr is NULL *)
| INIT_NO_PARTITION     (* unable to find frogfs partition *)
| INIT_MMAP_FAILED      (* mmap failed *)
| INIT_NO_MAGIC         (* frogfs magic not found *)
| INIT_VER_MISMATCH.    (* frogfs major version mismatch *)

Section Bind.
Variable b : build_config.
Variable esp_partition : option string -> partition_result.

Definition init_head (conf : frogfs_config_t) : init_error + image :=
  match conf_addr conf with
  | Some img => inr img
  | None =>
      if ESP_PLATFORM b then
        match esp_partition (conf_part_label conf) with
        | PartitionMissing => inl INIT_NO_PARTITION
        | PartitionMmapFailed => inl INIT_MMAP_FAILED
        | PartitionMapped img => inr img
        end
      else inl INIT_NO_ADDR
  end.

Definition frogfs_init (conf : frogfs_config_t) : init_error + frogfs_fs_t :=
  match init_head conf with
  | inl err => inl err
  | inr img =>
      let head := img_head img in
      if negb (head_magic head =? FROGFS_MAGIC b) then inl INIT_NO_MAGIC
      else if negb (head_ver_major head =? FROGFS_VER_MAJOR b)
      then inl INIT_VER_MISMATCH
      else
        let num_entries := to_int (head_num_entries head) in
        let hash := sizeof_frogfs_head_t b in
        inr {| fs_head := img;
               fs_hash := hash;
               fs_root := hash + sizeof_frogfs_hash_t * num_entries;
               fs_num_entries := num_entries |}
  end.
End Bind.

(** ** Path resolution *)

Definition load_entry (fs : frogfs_fs_t) (offs : Z) : run frogfs_entry_t :=
  load (img_entries (fs_head fs) !! offs).

(** [fs->hash[i]]: the record [i] places after the header. *)
Definition hash_at (fs : frogfs_fs_t) (i : Z) : run frogfs_hash_t :=
  if i <? 0 then Fault else load (img_hash (fs_head fs) !! Z.to_nat i).

(** The leading slashes are stepped over before anything else. *)
Fixpoint skip_slashes (path : string) : string :=
  match path with
  | String c rest => if Ascii.eqb c "/"%char then skip_slashes rest else path
  | EmptyString => path
  end.

(** The [seg_sz] bytes that [memcpy] takes from [frogfs_get_name(entry)]. *)
Definition frogfs_get_name (e : frogfs_entry_t) : string := e_name e.

Definition name_segment (e : frogfs_entry_t) : run string :=
  let name := frogfs_get_name e in
  if (0 <=? e_seg_sz e) && (e_seg_sz e <=? Z.of_nat (String.length name))
  then Done (substring 0 (Z.to_nat (e_seg_sz e)) name)
  else Fault.

Section Resolve.
Variable b : build_config.

(** The body of the [while] of [frogfs_get_path]; [path] holds the
    [len] bytes written so far, the rest of the buffer being zero. *)
Fixpoint frogfs_get_path_loop (fuel : nat) (fs : frogfs_fs_t) (entry : Z)
    (path : string) (len : Z) : run string :=
  match fuel with
  | O => OutOfFuel
  | S fuel' =>
      do e <- load_entry fs entry;
      if negb (e_parent e =? 0) && (len + e_seg_sz e + 1 <? PATH_MAX b - 1)
      then
        do seg <- name_segment e;
        if e_parent e =? fs_root fs
        then Done (seg ++ path)
        else frogfs_get_path_loop fuel' fs (e_parent e)
               ("/" ++ seg ++ path) (len + e_seg_sz e + 1)
      else Done path
  end.

Definition frogfs_get_path (fs : frogfs_fs_t) (entry : Z) : run string :=
  do e <- load_entry fs entry;
  if e_parent e =? 0 then Done ""
  else frogfs_get_path_loop (S (Z.to_nat (PATH_MAX b))) fs entry "" 0.

(** Binary search: the state at loop exit is [(first, last, middle, e)],
    [e] being the index [e] points at in [fs->hash]. *)
Fixpoint search_loop (fuel : nat) (fs : frogfs_fs_t) (hash : Z)
    (first last middle e : Z) : run (Z * Z * Z * Z) :=
  if first <=? last then
    match fuel with
    | O => OutOfFuel
    | S fuel' =>
        let middle := first + Z.quot (last - first) 2 in
        let e := middle in
        do he <- hash_at fs e;
        if he_hash he =? hash then Done (first, last, middle, e)
        else if he_hash he <? hash
        then search_loop fuel' fs hash (middle + 1) last middle e
        else search_loop fuel' fs hash first (middle - 1) middle e
    end
  else Done (first, last, middle, e).

(** "move e to the first match". *)
Fixpoint rewind_loop (fuel : nat) (fs : frogfs_fs_t) (hash : Z)
    (middle e : Z) : run (Z * Z) :=
  if 0 <? middle then
    match fuel with
    | O => OutOfFuel
    | S fuel' =>
        let e := middle in
        do prev <- hash_at fs (e - 1);
        if negb (he_hash prev =? hash) then Done (middle, e)
        else rewind_loop fuel' fs hash (middle - 1) e
    end
  else Done (middle, e).

(** "walk through canidates and look for a match": the [do ... while].
    [entry++] has no effect, [entry] being assigned afresh from [e] at
    the top of the body; [e] itself is not moved. *)
Fixpoint walk_loop (fuel : nat) (fs : frogfs_fs_t) (path : string)
    (hash : Z) (middle last e : Z) : run (option Z) :=
  match fuel with
  | O => OutOfFuel
  | S fuel' =>
      do he <- hash_at fs e;
      let entry := he_offs he in
      do found <- frogfs_get_path fs entry;
      if strcmp path found =? 0 then Done (Some entry)
      else
        let middle := middle + 1 in
        if (middle <? last) && (he_hash he =? hash)
        then walk_loop fuel' fs path hash middle last e
        else Done None
  end.

(** Returns the offset of the entry, [None] for [NULL].  [num_entries - 1]
    is taken without [int] overflow and the allocation of
    [frogfs_get_path] as successful; [frogfs_get_entry_alloc] has both
    outcomes. *)
Definition frogfs_get_entry (fs : frogfs_fs_t) (path : string)
    : run (option Z) :=
  let path := skip_slashes path in
  let hash := djb2_hash (abi b) path in
  let first := 0 in
  let last := fs_num_entries fs - 1 in
  do s <- search_loop (Z.to_nat (last - first + 1)) fs hash first last 0 0;
  let '(first, last, middle, e) := s in
  if last <? first then Done None
  else
    do r <- rewind_loop (Z.to_nat middle) fs hash middle e;
    let '(middle, e) := r in
    walk_loop (S (Z.to_nat (last - middle))) fs path hash middle last e.
End Resolve.

(** ** Entry status *)

Record frogfs_stat_t : Type := {
  st_type : frogfs_entry_type_t;
  st_compression : Z;
  st_compressed_sz : Z;
  st_size : Z
}.

Definition frogfs_is_dir (e : frogfs_entry_t) : bool := FROGFS_IS_DIR e.
Definition frogfs_is_file (e : frogfs_entry_t) : bool := FROGFS_IS_FILE e.

(** [st] is zeroed first, so the fields a branch does not assign are 0. *)
Definition frogfs_stat (fs : frogfs_fs_t) (entry : Z) : run frogfs_stat_t :=
  do e <- load_entry fs entry;
  if FROGFS_IS_DIR e then
    Done {| st_type := FROGFS_ENTRY_TYPE_DIR;
            st_compression := 0;
            st_compressed_sz := 0;
            st_size := 0 |}
  else
    let compression := e_compression e in
    if negb (compression =? 0) then
      Done {| st_type := FROGFS_ENTRY_TYPE_FILE;
              st_compression := compression;
              st_compressed_sz := e_data_sz e;
              st_size := e_real_sz e |}
    else
      Done {| st_type := FROGFS_ENTRY_TYPE_FILE;
              st_compression := compression;
              st_compressed_sz := e_data_sz e;
              st_size := e_data_sz e |}.

(** ** File handles *)

(** The driver tables a handle can point at. *)
Inductive frogfs_decomp_funcs_t : Type :=
| frogfs_decomp_raw
| frogfs_decomp_deflate
| frogfs_decomp_heatshrink.

Record frogfs_fh_t : Type := {
  fh_fs : frogfs_fs_t;
  fh_file : Z;
  fh_data_start : Z;
  fh_data_ptr : Z;
  fh_data_sz : Z;
  fh_flags : Z;
  fh_real_sz : Z;
  fh_decomp_funcs : frogfs_decomp_funcs_t
}.

(** Why [frogfs_open] returned [NULL]. *)
Inductive open_error : Type :=
| OPEN_IS_DIR           (* the early return for directories *)
| OPEN_UNKNOWN_COMP     (* unknown compression type *)
| OPEN_DECOMP_FAILED.   (* decomp_funcs->fopen *)

(** The handle as [frogfs_open] has filled it in when it calls the
    driver's [open]: [file] and the data pointers from the entry, the
    flags as given, [real_sz] and the driver as selected. *)
Definition filled_handle (fs : frogfs_fs_t) (entry : Z) (e : frogfs_entry_t)
    (flags real_sz : Z) (funcs : frogfs_decomp_funcs_t) : frogfs_fh_t :=
  {| fh_fs := fs; fh_file := entry;
     fh_data_start := e_data_offs e; fh_data_ptr := e_data_offs e;
     fh_data_sz := e_data_sz e; fh_flags := flags;
     fh_real_sz := real_sz; fh_decomp_funcs := funcs |}.

Section Open.
Variable b : build_config.

(** The [open] member of each driver table: [None] when the member is
    [NULL]; the function returns [None] for a negative result and the
    handle as the driver left it otherwise.  The drivers live outside
    [frogfs.c]. *)
Variable decomp_open :
  frogfs_decomp_funcs_t -> option (frogfs_fh_t -> Z -> option frogfs_fh_t).

Definition raw_flag (flags : Z) : bool :=
  negb (Z.land flags (FROGFS_OPEN_RAW b) =? 0).

(** The [if / else if / else] chain that picks [real_sz] and the
    driver; [None] is the final [else]. *)
Definition select_driver (e : frogfs_entry_t) (flags : Z)
    : option (Z * frogfs_decomp_funcs_t) :=
  if (e_compression e =? 0) || raw_flag flags
  then Some (e_data_sz e, frogfs_decomp_raw)
  else if CONFIG_FROGFS_USE_DEFLATE b
          && (e_compression e =? FROGFS_COMP_ALGO_DEFLATE)
  then Some (e_real_sz e, frogfs_decomp_deflate)
  else if CONFIG_FROGFS_USE_HEATSHRINK b
          && (e_compression e =? FROGFS_COMP_ALGO_HEATSHRINK)
  then Some (e_real_sz e, frogfs_decomp_heatshrink)
  else None.

Definition driver_open (fh : frogfs_fh_t) (flags : Z)
    : open_error + frogfs_fh_t :=
  match decomp_open (fh_decomp_funcs fh) with
  | None => inr fh
  | Some open =>
      match open fh flags with
      | None => inl OPEN_DECOMP_FAILED
      | Some fh' => inr fh'
      end
  end.

Definition frogfs_open (fs : frogfs_fs_t) (entry : Z) (flags : Z)
    : run (open_error + frogfs_fh_t) :=
  do e <- load_entry fs entry;
  if FROGFS_IS_DIR e then Done (inl OPEN_IS_DIR)
  else
    match select_driver e flags with
    | Some (real_sz, funcs) =>
        Done (driver_open (filled_handle fs entry e flags real_sz funcs) flags)
    | None => Done (inl OPEN_UNKNOWN_COMP)
    end.

Definition frogfs_is_raw (fh : frogfs_fh_t) : Z :=
  if raw_flag (fh_flags fh) then 1 else 0.
End Open.

(** Reads, seeks and tells are routed through the driver table of the
    handle; a missing member gives -1 (converted to [size_t] by
    [frogfs_tell]).  [R], [S] and [T] stand for what
    the driver's member yields (its result and what it leaves in the
    buffer and the handle). *)
Section Route.
Context {R S T : Type}.
Variable decomp_read : frogfs_decomp_funcs_t -> option (frogfs_fh_t -> Z -> R).
Variable decomp_seek :
  frogfs_decomp_funcs_t -> option (frogfs_fh_t -> Z -> Z -> S).
Variable decomp_tell : frogfs_decomp_funcs_t -> option (frogfs_fh_t -> T).

Definition frogfs_read (fh : frogfs_fh_t) (len : Z) : Z + R :=
  match decomp_read (fh_decomp_funcs fh) with
  | Some read => inr (read fh len)
  | None => inl (-1)
  end.

Definition frogfs_seek (fh : frogfs_fh_t) (offset mode : Z) : Z + S :=
  match decomp_seek (fh_decomp_funcs fh) with
  | Some seek => inr (seek fh offset mode)
  | None => inl (-1)
  end.

Definition frogfs_tell (fh : frogfs_fh_t) : Z + T :=
  match decomp_tell (fh_decomp_funcs fh) with
  | Some tell => inr (tell fh)
  | None => inl (-1)
  end.
End Route.

(** The pointer and the length [frogfs_access] hands out. *)
Definition frogfs_access (fh : frogfs_fh_t) : Z * Z :=
  (fh_data_start fh, fh_data_sz fh).

(** ** Directory handles *)

Record frogfs_dh_t : Type := {
  dh_fs : frogfs_fs_t;
  dh_dir : option Z;
  dh_index : Z
}.

Definition set_index (dh : frogfs_dh_t) (index : Z) : frogfs_dh_t :=
  {| dh_fs := dh_fs dh; dh_dir := dh_dir dh; dh_index := index |}.

(** [entry] is the nullable pointer argument; the result is [None] when
    the function returns [NULL]. *)
Definition frogfs_opendir (fs : frogfs_fs_t) (entry : option Z)
    : run (option frogfs_dh_t) :=
  match entry with
  | None => Done (Some {| dh_fs := fs; dh_dir := Some (fs_root fs); dh_index := 0 |})
  | Some p =>
      do e <- load_entry fs p;
      if FROGFS_IS_FILE e then Done None
      else Done (Some {| dh_fs := fs; dh_dir := Some p; dh_index := 0 |})
  end.

(** Returns the child's offset ([None] for [NULL]) and the handle as the
    call leaves it.  [index] has the 16-bit type [frogfs_telldir]
    returns. *)
Definition frogfs_readdir (dh : frogfs_dh_t) : run (option Z * frogfs_dh_t) :=
  match dh_dir dh with
  | None => Done (None, dh)
  | Some d =>
      do dir <- load_entry (dh_fs dh) d;
      if dh_index dh <? e_child_count dir then
        do child <- (if dh_index dh <? 0 then Fault
                     else load (e_children dir !! Z.to_nat (dh_index dh)));
        Done (Some child, set_index dh (to_uint16 (dh_index dh + 1)))
      else Done (None, dh)
  end.

Definition frogfs_rewinddir (dh : frogfs_dh_t) : frogfs_dh_t := set_index dh 0.

Fixpoint seekdir_loop (fuel : nat) (dh : frogfs_dh_t) (loc : Z)
    : run frogfs_dh_t :=
  if dh_index dh <? loc then
    match fuel with
    | O => OutOfFuel
    | S fuel' =>
        do r <- frogfs_readdir dh;
        seekdir_loop fuel' (snd r) loc
    end
  else Done dh.

(** [fuel] bounds the number of [frogfs_readdir] calls of the loop. *)
Definition frogfs_seekdir (fuel : nat) (dh : frogfs_dh_t) (loc : Z)
    : run frogfs_dh_t :=
  seekdir_loop fuel (frogfs_rewinddir dh) loc.

Definition frogfs_telldir (dh : frogfs_dh_t) : Z := dh_index dh.

(** ** Sample builds and images *)

Definition host_build : build_config :=
  {| abi := abi_x86_64; PATH_MAX := 4096; ESP_PLATFORM := false;
     FROGFS_MAGIC := 0x474F5246; FROGFS_VER_MAJOR := 1;
     sizeof_frogfs_head_t := 16; FROGFS_OPEN_RAW := 1;
     CONFIG_FROGFS_USE_DEFLATE := true;
     CONFIG_FROGFS_USE_HEATSHRINK := false |}.

Definition esp_build : build_config :=
  {| abi := abi_esp32; PATH_MAX := 1024; ESP_PLATFORM := true;
     FROGFS_MAGIC := 0x474F5246; FROGFS_VER_MAJOR := 1;
     sizeof_frogfs_head_t := 16; FROGFS_OPEN_RAW := 1;
     CONFIG_FROGFS_USE_DEFLATE := true;
     CONFIG_FROGFS_USE_HEATSHRINK := true |}.

Definition no_flash (label : option string) : partition_result :=
  PartitionMissing.

(** Drivers whose [open] member is [NULL]. *)
Definition no_open_hooks (funcs : frogfs_decomp_funcs_t)
    : option (frogfs_fh_t -> Z -> option frogfs_fh_t) := None.

Definition mk_head (num_entries binary_length : Z) : frogfs_head_t :=
  {| head_magic := 0x474F5246; head_ver_major := 1; head_ver_minor := 0;
     head_num_entries := num_entries; head_binary_length := binary_length |}.

Definition mk_hash (hash offs : Z) : frogfs_hash_t :=
  {| he_hash := hash; he_offs := offs |}.

Definition mk_dir (parent : Z) (name : string) (children : list Z)
    : frogfs_entry_t :=
  {| e_type := FROGFS_ENTRY_TYPE_DIR; e_compression := 0;
     e_seg_sz := Z.of_nat (String.length name); e_parent := parent;
     e_child_count := Z.of_nat (List.length children);
     e_children := children;
     e_data_offs := 0; e_data_sz := 0; e_real_sz := 0; e_name := name |}.

Definition mk_file (parent : Z) (name : string) (compression : Z)
    (data_offs data_sz real_sz : Z) : frogfs_entry_t :=
  {| e_type := FROGFS_ENTRY_TYPE_FILE; e_compression := compression;
     e_seg_sz := Z.of_nat (String.length name); e_parent := parent;
     e_child_count := 0; e_children := [];
     e_data_offs := data_offs; e_data_sz := data_sz; e_real_sz := real_sz;
     e_name := name |}.

Definition mk_entries (l : list (Z * frogfs_entry_t)) : gmap Z frogfs_entry_t :=
  list_to_map l.

Definition conf_of (img : image) : frogfs_config_t :=
  {| conf_addr := Some img; conf_part_label := None |}.

(** What [frogfs_init] builds on [host_build] for an image that passes
    its checks. *)
Definition bound (img : image) : frogfs_fs_t :=
  let n := to_int (head_num_entries (img_head img)) in
  {| fs_head := img; fs_hash := 16; fs_root := 16 + 8 * n;
     fs_num_entries := n |}.

(** Root with [etc/{a,b,c}], a DEFLATE-compressed [big.txt] and a plain
    [index.html]. *)
Definition demo_image : image :=
  {| img_head := mk_head 7 576;
     img_hash := [ mk_hash 5381 72;
                   mk_hash 165778041 120;
                   mk_hash 165778042 140;
                   mk_hash 165778043 160;
                   mk_hash 193406039 96;
                   mk_hash 1660715144 208;
                   mk_hash 2658520959 180 ];
     img_entries := mk_entries
       [ (72, mk_dir 0 "" [96; 180; 208]);
         (96, mk_dir 72 "etc" [120; 140; 160]);
         (120, mk_file 96 "a" 0 236 1 0);
         (140, mk_file 96 "b" 0 240 1 0);
         (160, mk_file 96 "c" 0 244 1 0);
         (180, mk_file 72 "big.txt" 1 248 312 1024);
         (208, mk_file 72 "index.html" 0 560 13 0) ] |}.

Definition demo_fs : frogfs_fs_t := bound demo_image.

(** Two files whose paths, [bC] and [cb], have the same hash. *)
Definition tie_image : image :=
  {| img_head := mk_head 3 108;
     img_hash := [ mk_hash 5381 40;
                   mk_hash 5861092 60;
                   mk_hash 5861092 80 ];
     img_entries := mk_entries
       [ (40, mk_dir 0 "" [60; 80]);
         (60, mk_file 40 "bC" 0 100 2 0);
         (80, mk_file 40 "cb" 0 104 2 0) ] |}.

Definition tie_fs : frogfs_fs_t := bound tie_image.

(** The handle on [etc] of the sample image, as [frogfs_opendir] makes it. *)
Definition etc_dh : frogfs_dh_t :=
  {| dh_fs := demo_fs; dh_dir := Some 96; dh_index := 0 |}.

(** A file whose path has the hash of the empty string, listed before
    the root in the index. *)
Definition root_tie_image : image :=
  {| img_head := mk_head 2 76;
     img_hash := [ mk_hash 5381 48;
                   mk_hash 5381 32 ];
     img_entries := mk_entries
       [ (32, mk_dir 0 "" [48]);
         (48, mk_file 32 "lgi7bny" 0 72 1 0) ] |}.

(** A root and one file, the hash index listing the file only. *)
Definition unindexed_root_image : image :=
  {| img_head := mk_head 1 64;
     img_hash := [ mk_hash 177604 40 ];
     img_entries := mk_entries
       [ (24, mk_dir 0 "" [40]);
         (40, mk_file 24 "a" 0 60 1 0) ] |}.

(** A bare header that announces a thousand entries. *)
Definition oversized_image : image :=
  {| img_head := mk_head 1000 16;
     img_hash := [];
     img_entries := mk_entries [] |}.

(** ** Vocabulary of the statements *)

(** The hash table the header announces ends within the length the
    header gives for the binary, and its records are there. *)
Definition table_within_length (b : build_config) (img : image) : Prop :=
  sizeof_frogfs_head_t b
  + sizeof_frogfs_hash_t * head_num_entries (img_head img)
  <= head_binary_length (img_head img).

Definition table_present (img : image) : Prop :=
  head_num_entries (img_head img) <= Z.of_nat (List.length (img_hash img)).

(** The hash index of a bound image: [num_entries] records, ascending. *)
Definition index_complete (fs : frogfs_fs_t) : Prop :=
  fs_num_entries fs = Z.of_nat (List.length (img_hash (fs_head fs))).

Definition index_sorted (fs : frogfs_fs_t) : Prop :=
  forall (i j : nat) (x y : frogfs_hash_t),
    (i <= j)%nat ->
    img_hash (fs_head fs) !! i = Some x ->
    img_hash (fs_head fs) !! j = Some y ->
    he_hash x <= he_hash y.

(** Record [i] is the only one of the index with hash [h]. *)
Definition only_record (fs : frogfs_fs_t) (i : nat) (h offs : Z) : Prop :=
  img_hash (fs_head fs) !! i = Some {| he_hash := h; he_offs := offs |} /\
  forall (j : nat) (y : frogfs_hash_t),
    img_hash (fs_head fs) !! j = Some y -> he_hash y = h -> j = i.

Fixpoint slashes (n : nat) : string :=
  match n with
  | O => ""
  | S n' => String "/" (slashes n')
  end.

Definition set_flags (fh : frogfs_fh_t) (flags : Z) : frogfs_fh_t :=
  {| fh_fs := fh_fs fh; fh_file := fh_file fh;
     fh_data_start := fh_data_start fh; fh_data_ptr := fh_data_ptr fh;
     fh_data_sz := fh_data_sz fh; fh_flags := flags;
     fh_real_sz := fh_real_sz fh; fh_decomp_funcs := fh_decomp_funcs fh |}.

(** Calls a client can make on a directory handle between [opendir] and
    [closedir], [seekdir] apart. *)
Inductive dir_call : Type := CALL_READDIR | CALL_REWINDDIR | CALL_TELLDIR.

Definition dir_call_run (c : dir_call) (dh : frogfs_dh_t) : run frogfs_dh_t :=
  match c with
  | CALL_READDIR => do r <- frogfs_readdir dh; Done (snd r)
  | CALL_REWINDDIR => Done (frogfs_rewinddir dh)
  | CALL_TELLDIR => let _ := frogfs_telldir dh in Done dh
  end.

Fixpoint dir_calls_run (cs : list dir_call) (dh : frogfs_dh_t)
    : run frogfs_dh_t :=
  match cs with
  | [] => Done dh
  | c :: cs' => do dh' <- dir_call_run c dh; dir_calls_run cs' dh'
  end.

(** A handle on the directory record [dir], found at offset [d]. *)
Definition handle_on (dh : frogfs_dh_t) (d : Z) (dir : frogfs_entry_t) : Prop :=
  dh_dir dh = Some d /\ img_entries (fs_head (dh_fs dh)) !! d = Some dir.

(** The [children] array holds what [child_count] announces. *)
Definition children_present (dir : frogfs_entry_t) : Prop :=
  e_child_count dir <= Z.of_nat (List.length (e_children dir)).

(** A driver member that does not look at the [flags] of the handle. *)
Definition ignores_flags {A : Type} (f : frogfs_fh_t -> A) : Prop :=
  forall (fh : frogfs_fh_t) (flags : Z), f (set_flags fh flags) = f fh.

(** A check of the ascending order that can be run on an index. *)
Fixpoint ascending (l : list frogfs_hash_t) : bool :=
  match l with
  | x :: (y :: _) as rest => (he_hash x <=? he_hash y) && ascending rest
  | _ => true
  end.

(** ** The alignment helper *)

(** [size_t] arithmetic of [bits] bits. *)
Definition to_size_t (bits : Z) (x : Z) : Z := x mod 2 ^ bits.

(** "Returns the current or next highest multiple of 4":
    [((n + 4 - 1) / 4) * 4] on [size_t]. *)
Definition align (bits : Z) (n : Z) : Z :=
  to_size_t bits (to_size_t bits (to_size_t bits (n + 4) - 1) / 4 * 4).

(** ** Vocabulary for paths, closed images and directory listings *)

(** The bytes of the name that make the path segment of an entry. *)
Definition segment_ok (e : frogfs_entry_t) : Prop :=
  0 <= e_seg_sz e <= Z.of_nat (String.length (e_name e)).

Definition segment (e : frogfs_entry_t) : string :=
  substring 0 (Z.to_nat (e_seg_sz e)) (e_name e).

(** [lineage fs offs segs]: walking the parent links from the entry at
    [offs] reaches a child of the root directory, [segs] being the
    segments met, outermost first. *)
Inductive lineage (fs : frogfs_fs_t) : Z -> list string -> Prop :=
| lineage_top (offs : Z) (e : frogfs_entry_t) :
    img_entries (fs_head fs) !! offs = Some e ->
    e_parent e <> 0 ->
    e_parent e = fs_root fs ->
    segment_ok e ->
    lineage fs offs [segment e]
| lineage_sub (offs : Z) (e : frogfs_entry_t) (segs : list string) :
    img_entries (fs_head fs) !! offs = Some e ->
    e_parent e <> 0 ->
    e_parent e <> fs_root fs ->
    segment_ok e ->
    lineage fs (e_parent e) segs ->
    lineage fs offs (segs ++ [segment e])%list.

(** [segs] joined by slashes in front of [rest]. *)
Fixpoint join_onto (segs : list string) (rest : string) : string :=
  match segs with
  | [] => rest
  | [s] => s ++ rest
  | s :: more => s ++ "/" ++ join_onto more rest
  end.

(** Every offset the resolver can follow leads to a record of the image:
    the index holds [num_entries] records, each pointing at an entry;
    names hold their segment; parents other than the root are entries. *)
Definition image_closed (fs : frogfs_fs_t) : Prop :=
  fs_num_entries fs <= Z.of_nat (List.length (img_hash (fs_head fs))) /\
  (forall (i : nat) (he : frogfs_hash_t),
     img_hash (fs_head fs) !! i = Some he ->
     is_Some (img_entries (fs_head fs) !! he_offs he)) /\
  (forall (offs : Z) (e : frogfs_entry_t),
     img_entries (fs_head fs) !! offs = Some e ->
     segment_ok e /\
     (e_parent e <> 0 -> e_parent e <> fs_root fs ->
      is_Some (img_entries (fs_head fs) !! e_parent e))).

(** No record among the [num_entries] first of the index has hash [h]. *)
Definition hash_absent (fs : frogfs_fs_t) (h : Z) : Prop :=
  forall (i : nat) (he : frogfs_hash_t),
    Z.of_nat i < fs_num_entries fs ->
    img_hash (fs_head fs) !! i = Some he ->
    he_hash he <> h.

(** A client that calls [frogfs_readdir] [n] times and keeps the answers. *)
Fixpoint readdir_n (n : nat) (dh : frogfs_dh_t)
    : run (list (option Z) * frogfs_dh_t) :=
  match n with
  | O => Done ([], dh)
  | S n' =>
      do r <- frogfs_readdir dh;
      do rest <- readdir_n n' (snd r);
      Done (fst r :: fst rest, snd rest)
  end.

(** The directory record is whole: [children] has [child_count]
    offsets, and the count fits the cursor's 16 bits. *)
Definition dir_whole (dir : frogfs_entry_t) : Prop :=
  e_child_count dir = Z.of_nat (List.length (e_children dir)) /\
  e_child_count dir < 2 ^ 16.

(** The [open] members of the drivers leave the fields of the handle as
    [frogfs_open] filled them. *)
Definition hooks_keep_handle
    (decomp_open :
       frogfs_decomp_funcs_t -> option (frogfs_fh_t -> Z -> option frogfs_fh_t))
    : Prop :=
  forall funcs open fh flags fh',
    decomp_open funcs = Some open -> open fh flags = Some fh' -> fh' = fh.

(** ** The lookup with allocation failure and [int] overflow made explicit

    [frogfs_get_path] starts with a [calloc] and returns [NULL] when it
    fails; [frogfs_get_entry] hands that result to [strcmp] unchecked,
    and computes [num_entries - 1] on [int].  The definitions below are
    [frogfs_get_path] and [frogfs_get_entry] with these two outcomes
    written out: [calloc_ok k] tells whether the allocation of the
    [k]-th [frogfs_get_path] call of a lookup succeeds, and both
    undefined behaviours are a [Fault]. *)

Definition INT_MIN : Z := - 2 ^ 31.

Section ResolveAlloc.
Variable b : build_config.
Variable calloc_ok : nat -> bool.

(** [None] is the [NULL] returned when [calloc] fails, before anything
    of the entry is read. *)
Definition frogfs_get_path_alloc (k : nat) (fs : frogfs_fs_t) (entry : Z)
    : run (option string) :=
  if calloc_ok k then
    do path <- frogfs_get_path b fs entry;
    Done (Some path)
  else Done None.

Fixpoint walk_loop_alloc (fuel : nat) (k : nat) (fs : frogfs_fs_t)
    (path : string) (hash : Z) (middle last e : Z) : run (option Z) :=
  match fuel with
  | O => OutOfFuel
  | S fuel' =>
      do he <- hash_at fs e;
      let entry := he_offs he in
      do found <- frogfs_get_path_alloc k fs entry;
      match found with
      | None => Fault
      | Some found =>
          if strcmp path found =? 0 then Done (Some entry)
          else
            let middle := middle + 1 in
            if (middle <? last) && (he_hash he =? hash)
            then walk_loop_alloc fuel' (S k) fs path hash middle last e
            else Done None
      end
  end.

Definition frogfs_get_entry_alloc (fs : frogfs_fs_t) (path : string)
    : run (option Z) :=
  let path := skip_slashes path in
  let hash := djb2_hash (abi b) path in
  let first := 0 in
  if fs_num_entries fs =? INT_MIN then Fault
  else
    let last := fs_num_entries fs - 1 in
    do s <- search_loop (Z.to_nat (last - first + 1)) fs hash first last 0 0;
    let '(first, last, middle, e) := s in
    if last <? first then Done None
    else
      do r <- rewind_loop (Z.to_nat middle) fs hash middle e;
      let '(middle, e) := r in
      walk_loop_alloc (S (Z.to_nat (last - middle))) 0 fs path hash
        middle last e.
End ResolveAlloc.

(** A build with a [PATH_MAX] of 8 bytes and an image whose file
    [abc/defg] does not fit it. *)
Definition tiny_build : build_config :=
  {| abi := abi_esp32; PATH_MAX := 8; ESP_PLATFORM := false;
     FROGFS_MAGIC := 0x474F5246; FROGFS_VER_MAJOR := 1;
     sizeof_frogfs_head_t := 16; FROGFS_OPEN_RAW := 1;
     CONFIG_FROGFS_USE_DEFLATE := false;
     CONFIG_FROGFS_USE_HEATSHRINK := false |}.

Definition deep_image : image :=
  {| img_head := mk_head 3 100;
     img_hash := [ mk_hash 5381 40;
                   mk_hash 193409669 56;
                   mk_hash 773516362 72 ];
     img_entries := mk_entries
       [ (40, mk_dir 0 "" [56]);
         (56, mk_dir 40 "abc" [72]);
         (72, mk_file 56 "defg" 0 96 1 0) ] |}.

Definition deep_fs : frogfs_fs_t := bound deep_image.

(** ** Checks on the sample data *)

Example djb2_hash_a : djb2_hash abi_esp32 "a" = 177604.
Proof. reflexivity. Qed.

Example djb2_hash_collide :
  djb2_hash abi_esp32 "bC" = 5861092 /\ djb2_hash abi_esp32 "cb" = 5861092.
Proof. split; reflexivity. Qed.

Example djb2_hash_high_unsigned :
  djb2_hash abi_esp32 (String "128"%char "") = 177445.
Proof. reflexivity. Qed.

Example djb2_hash_high_signed :
  djb2_hash abi_x86_64 (String "128"%char "") = 4294789669.
Proof. reflexivity. Qed.

Example demo_init :
  frogfs_init host_build no_flash (conf_of demo_image) = inr demo_fs.
Proof. reflexivity. Qed.

Example demo_resolve_index :
  frogfs_get_entry host_build demo_fs "/index.html" = Done (Some 208).
Proof. vm_compute. reflexivity. Qed.

Example demo_resolve_nested :
  frogfs_get_entry host_build demo_fs "etc/b" = Done (Some 140).
Proof. vm_compute. reflexivity. Qed.

Example demo_resolve_missing :
  frogfs_get_entry host_build demo_fs "etc/d" = Done None.
Proof. vm_compute. reflexivity. Qed.

Example demo_path_nested :
  frogfs_get_path host_build demo_fs 160 = Done "etc/c".
Proof. vm_compute. reflexivity. Qed.

Example demo_opendir_etc :
  frogfs_opendir demo_fs (Some 96) = Done (Some etc_dh) /\
  frogfs_opendir demo_fs (Some 208) = Done None /\
  frogfs_opendir demo_fs None = Done (Some (set_index
    {| dh_fs := demo_fs; dh_dir := Some 72; dh_index := 0 |} 0)).
Proof. repeat split; reflexivity. Qed.

Example demo_readdir_etc :
  frogfs_readdir etc_dh = Done (Some 120, set_index etc_dh 1) /\
  frogfs_readdir (set_index etc_dh 2) = Done (Some 160, set_index etc_dh 3).
Proof. split; reflexivity. Qed.

Example root_tie_resolve :
  djb2_hash abi_esp32 "lgi7bny" = 5381 /\
  frogfs_get_entry esp_build (bound root_tie_image) "lgi7bny" = Done (Some 48) /\
  frogfs_get_entry esp_build (bound root_tie_image) "" = Done None.
Proof. repeat split; vm_compute; reflexivity. Qed.

Example deep_path_truncated :
  frogfs_get_path host_build deep_fs 72 = Done "abc/defg" /\
  frogfs_get_path tiny_build deep_fs 72 = Done "/defg" /\
  frogfs_get_entry tiny_build deep_fs "/defg" = Done None /\
  frogfs_get_entry tiny_build deep_fs "abc/defg" = Done None /\
  frogfs_get_entry host_build deep_fs "abc/defg" = Done (Some 72).
Proof. repeat split; vm_compute; reflexivity. Qed.

Example demo_resolve_alloc :
  frogfs_get_entry_alloc host_build (fun _ => true) demo_fs "etc/b"
    = Done (Some 140) /\
  frogfs_get_entry_alloc host_build (fun _ => false) demo_fs "etc/b" = Fault /\
  frogfs_get_entry_alloc host_build (fun _ => false) demo_fs "etc/d" = Done None.
Proof. repeat split; vm_compute; reflexivity. Qed.

Example tie_resolve_first :
  frogfs_get_entry host_build tie_fs "/bC" = Done (Some 60).
Proof. vm_compute. reflexivity. Qed.

Example tie_resolve_second :
  frogfs_get_entry host_build tie_fs "/cb" = Done None.
Proof. vm_compute. reflexivity. Qed.

(** ** The hash function *)

Lemma byte_val_range (c : ascii) : 0 <= byte_val c < 256.
Proof.
  unfold byte_val. pose proof (N_ascii_bounded c) as H.
  change 256 with (Z.of_N 256). lia.
Qed.

Lemma lxor_mod_pow2 (x y n : Z) :
  0 <= n -> Z.lxor x y mod 2 ^ n = Z.lxor (x mod 2 ^ n) (y mod 2 ^ n).
Proof.
  intros Hn. rewrite <- !Z.land_ones by assumption.
  apply Z.bits_inj'. intros i Hi.
  rewrite Z.lxor_spec, !Z.land_spec, Z.lxor_spec.
  destruct (Z.testbit x i), (Z.testbit y i), (Z.testbit (Z.ones n) i);
    reflexivity.
Qed.

Lemma to_ulong_uint32 (abi : c_abi) (x : Z) :
  to_uint32 (to_ulong abi x) = to_uint32 x.
Proof.
  unfold to_uint32, to_ulong, ulong_bits.
  apply Z.mod_mod_divide.
  destruct (ulong_model abi); simpl.
  - exists 1. reflexivity.
  - exists (2 ^ 32). reflexivity.
Qed.

Lemma to_uint32_small (x : Z) : 0 <= x < 256 -> to_uint32 x = x.
Proof. intros H. unfold to_uint32. apply Z.mod_small. lia. Qed.

(** The step of the loop, seen through the final truncation, depends on
    the accumulator modulo [2^32] only. *)
Lemma djb2_step_uint32 (abi : c_abi) (hash : Z) (c : ascii) :
  to_uint32 (djb2_step abi hash c) =
  Z.lxor (to_uint32 (Z.shiftl (to_uint32 hash) 5 + to_uint32 hash))
         (to_uint32 (char_val abi c)).
Proof.
  unfold djb2_step.
  unfold to_uint32 at 1. rewrite lxor_mod_pow2 by lia.
  fold (to_uint32 (to_ulong abi (to_ulong abi (Z.shiftl hash 5) + hash))).
  fold (to_uint32 (to_ulong abi (char_val abi c))).
  rewrite !to_ulong_uint32. f_equal.
  unfold to_uint32, to_ulong.
  rewrite !Z.shiftl_mul_pow2 by lia.
  rewrite Z.add_mod by lia.
  fold (to_ulong abi (hash * 2 ^ 5)). fold (to_uint32 (to_ulong abi (hash * 2 ^ 5))).
  rewrite to_ulong_uint32. unfold to_uint32.
  rewrite (Z.add_mod (hash mod 2 ^ 32 * 2 ^ 5) (hash mod 2 ^ 32)) by lia.
  rewrite (Z.mul_mod hash) by lia.
  rewrite (Z.mul_mod (hash mod 2 ^ 32)) by lia.
  rewrite !Z.mod_mod by lia. reflexivity.
Qed.

Lemma djb2_loop_uint32 (abi : c_abi) (s : string) :
  (forall c, In c (list_ascii_of_string (c_str s)) ->
             char_val abi c = byte_val c) ->
  forall hash,
    to_uint32 (djb2_loop abi s hash) =
    fold_left (fun h b => Z.lxor (to_uint32 (Z.shiftl h 5 + h)) b)
              (str_bytes (c_str s)) (to_uint32 hash).
Proof.
  induction s as [|c s IH]; intros Hc hash; simpl.
  - reflexivity.
  - destruct (is_nul c) eqn:Hnul; simpl.
    + reflexivity.
    + simpl in Hc. rewrite Hnul in Hc. simpl in Hc.
      rewrite IH by (intros c' Hin; apply Hc; right; exact Hin).
      rewrite djb2_step_uint32.
      rewrite (Hc c) by (left; reflexivity).
      rewrite (to_uint32_small (byte_val c)) by apply byte_val_range.
      reflexivity.
Qed.

(** X2: where plain [char] is unsigned, [djb2_hash] is the hash of the
    format document on every string, whatever the width of
    [unsigned long]. *)
Lemma djb2_hash_unsigned_char (abi : c_abi) (s : string) :
  char_signed abi = false ->
  djb2_hash abi s = djb2_xor (str_bytes (c_str s)).
Proof.
  intros Hu. unfold djb2_hash, djb2_xor.
  rewrite djb2_loop_uint32.
  - reflexivity.
  - intros c _. unfold char_val. rewrite Hu. reflexivity.
Qed.

(** X3: on every ABI, signed [char] or not, [djb2_hash] is the hash of
    the format document on strings of bytes below [0x80]. *)
Lemma djb2_hash_ascii (abi : c_abi) (s : string) :
  Forall (fun v => v < 128) (str_bytes (c_str s)) ->
  djb2_hash abi s = djb2_xor (str_bytes (c_str s)).
Proof.
  intros Hs. unfold djb2_hash, djb2_xor.
  rewrite djb2_loop_uint32; [reflexivity|].
  intros c Hin. unfold char_val.
  assert (Hlt : byte_val c < 128).
  { revert Hs Hin. generalize (c_str s). intros t.
    induction t as [|x t IH]; simpl; intros HF Hin; [contradiction|].
    inversion HF; subst. destruct Hin as [->|Hin]; [assumption|].
    apply IH; assumption. }
  destruct (128 <=? byte_val c) eqn:E; [lia|].
  rewrite andb_false_r. reflexivity.
Qed.

(** C2: with a signed plain [char] (the x86 ABIs), a byte of [0x80] or
    more is sign-extended before the XOR, and the value returned is not
    the hash of the format document, which takes the byte as [128]. *)
Theorem djb2_hash_sign_extends :
  djb2_hash abi_x86_64 (String "128"%char "") = 4294789669 /\
  djb2_hash abi_i386 (String "128"%char "") = 4294789669 /\
  djb2_xor (str_bytes (c_str (String "128"%char ""))) = 177445 /\
  djb2_hash abi_esp32 (String "128"%char "") = 177445.
Proof. repeat split; reflexivity. Qed.

(** ** Binding *)

(** C3, counterexample: a bare header that announces a thousand hash
    records in a binary of sixteen bytes is bound all the same. *)
Lemma frogfs_init_binds_oversized :
  frogfs_init host_build no_flash (conf_of oversized_image)
    = inr (bound oversized_image) /\
  fs_num_entries (bound oversized_image) = 1000 /\
  ~ table_within_length host_build oversized_image /\
  ~ table_present oversized_image.
Proof.
  split; [reflexivity|]. split; [reflexivity|].
  unfold table_within_length, table_present; simpl.
  unfold sizeof_frogfs_hash_t. lia.
Qed.

(** C3, as the code has it: once the header is reachable, [frogfs_init]
    tests the magic, then the major version, and nothing else; an image
    that passes both is bound with whatever [num_entries] its header
    holds. *)
Theorem frogfs_init_checks (b : build_config)
    (flash : option string -> partition_result)
    (conf : frogfs_config_t) (img : image) :
  init_head b flash conf = inr img ->
  let head := img_head img in
  (head_magic head <> FROGFS_MAGIC b ->
     frogfs_init b flash conf = inl INIT_NO_MAGIC) /\
  (head_magic head = FROGFS_MAGIC b ->
   head_ver_major head <> FROGFS_VER_MAJOR b ->
     frogfs_init b flash conf = inl INIT_VER_MISMATCH) /\
  (head_magic head = FROGFS_MAGIC b ->
   head_ver_major head = FROGFS_VER_MAJOR b ->
     exists fs, frogfs_init b flash conf = inr fs /\
       fs_head fs = img /\
       fs_num_entries fs = to_int (head_num_entries head) /\
       fs_hash fs = sizeof_frogfs_head_t b /\
       fs_root fs = sizeof_frogfs_head_t b
                    + sizeof_frogfs_hash_t * to_int (head_num_entries head)).
Proof.
  intros Hhead head. unfold frogfs_init. rewrite Hhead. fold head.
  repeat split.
  - intros Hm. apply Z.eqb_neq in Hm. rewrite Hm. reflexivity.
  - intros Hm Hv. apply Z.eqb_eq in Hm. apply Z.eqb_neq in Hv.
    rewrite Hm, Hv. reflexivity.
  - intros Hm Hv. apply Z.eqb_eq in Hm. apply Z.eqb_eq in Hv.
    rewrite Hm, Hv. simpl. eexists. repeat split.
Qed.

Lemma frogfs_init_checks_witness :
  init_head host_build no_flash (conf_of oversized_image) = inr oversized_image /\
  exists fs, frogfs_init host_build no_flash (conf_of oversized_image) = inr fs /\
             fs_num_entries fs = 1000.
Proof.
  split; [reflexivity|].
  destruct (frogfs_init_checks host_build no_flash (conf_of oversized_image)
              oversized_image eq_refl) as (_ & _ & H).
  destruct (H eq_refl eq_refl) as (fs & Hfs & _ & Hn & _).
  exists fs. split; [exact Hfs|]. rewrite Hn. reflexivity.
Defined.

(** ** The resolver returns *)

(** The loops of [frogfs_get_path] and [frogfs_get_entry] are bounded:
    the fuel the model hands them is never used up. *)

Lemma load_not_out_of_fuel {A : Type} (o : option A) : load o <> OutOfFuel.
Proof. destruct o; discriminate. Qed.

Lemma hash_at_not_out_of_fuel (fs : frogfs_fs_t) (i : Z) :
  hash_at fs i <> OutOfFuel.
Proof.
  unfold hash_at. destruct (i <? 0); [discriminate|].
  apply load_not_out_of_fuel.
Qed.

Lemma name_segment_nonneg (e : frogfs_entry_t) (seg : string) :
  name_segment e = Done seg -> 0 <= e_seg_sz e.
Proof.
  unfold name_segment.
  destruct (0 <=? e_seg_sz e) eqn:E; simpl; [|discriminate].
  intros _. lia.
Qed.

Lemma frogfs_get_path_loop_bounded (b : build_config) (fs : frogfs_fs_t) :
  forall (fuel : nat) (entry : Z) (path : string) (len : Z),
    (0 < fuel)%nat ->
    PATH_MAX b - len < Z.of_nat fuel ->
    frogfs_get_path_loop b fuel fs entry path len <> OutOfFuel.
Proof.
  induction fuel as [|fuel IH]; intros entry path len Hpos Hfuel; [lia|].
  simpl. unfold load_entry.
  destruct (img_entries (fs_head fs) !! entry) as [e|]; simpl; [|discriminate].
  destruct (negb (e_parent e =? 0)
            && (len + e_seg_sz e + 1 <? PATH_MAX b - 1)) eqn:Hcond;
    [|discriminate].
  apply andb_true_iff in Hcond as [_ Hlt]. apply Z.ltb_lt in Hlt.
  destruct (name_segment e) as [seg| |] eqn:Hseg; simpl; try discriminate.
  - apply name_segment_nonneg in Hseg.
    destruct (e_parent e =? fs_root fs); [discriminate|].
    apply IH; lia.
  - unfold name_segment in Hseg.
    destruct (_ && _) in Hseg; discriminate.
Qed.

Lemma frogfs_get_path_bounded (b : build_config) (fs : frogfs_fs_t) (entry : Z) :
  frogfs_get_path b fs entry <> OutOfFuel.
Proof.
  unfold frogfs_get_path, load_entry.
  destruct (img_entries (fs_head fs) !! entry) as [e|];
    cbn [load run_bind]; [|discriminate].
  destruct (e_parent e =? 0); [discriminate|].
  apply frogfs_get_path_loop_bounded; lia.
Qed.

Lemma middle_between (first last : Z) :
  first <= last ->
  first <= first + Z.quot (last - first) 2 <= last.
Proof.
  intros H. rewrite Z.quot_div_nonneg by lia.
  pose proof (Z.div_pos (last - first) 2).
  pose proof (Z.div_le_upper_bound (last - first) 2 (last - first)).
  lia.
Qed.

Lemma search_loop_bounded (b : build_config) (fs : frogfs_fs_t) (hash : Z) :
  forall (fuel : nat) (first last middle e : Z),
    last - first + 1 <= Z.of_nat fuel ->
    search_loop fuel fs hash first last middle e <> OutOfFuel.
Proof.
  induction fuel as [|fuel IH]; intros first last middle e Hfuel; simpl.
  - destruct (first <=? last) eqn:E; [|discriminate].
    apply Z.leb_le in E. lia.
  - destruct (first <=? last) eqn:E; [|discriminate].
    apply Z.leb_le in E. pose proof (middle_between first last E) as Hm.
    destruct (hash_at fs (first + Z.quot (last - first) 2)) as [he| |] eqn:Hat;
      simpl; try discriminate.
    + destruct (he_hash he =? hash); [discriminate|].
      destruct (he_hash he <? hash); apply IH; lia.
    + exfalso. exact (hash_at_not_out_of_fuel _ _ Hat).
Qed.

Lemma rewind_loop_bounded (fs : frogfs_fs_t) (hash : Z) :
  forall (fuel : nat) (middle e : Z),
    middle <= Z.of_nat fuel ->
    rewind_loop fuel fs hash middle e <> OutOfFuel.
Proof.
  induction fuel as [|fuel IH]; intros middle e Hfuel; simpl.
  - destruct (0 <? middle) eqn:E; [|discriminate].
    apply Z.ltb_lt in E. lia.
  - destruct (0 <? middle) eqn:E; [|discriminate].
    destruct (hash_at fs (middle - 1)) as [he| |] eqn:Hat;
      simpl; try discriminate.
    + destruct (negb (he_hash he =? hash)); [discriminate|].
      apply IH. lia.
    + exfalso. exact (hash_at_not_out_of_fuel _ _ Hat).
Qed.

Lemma walk_loop_bounded (b : build_config) (fs : frogfs_fs_t)
    (path : string) (hash last e : Z) :
  forall (fuel : nat) (middle : Z),
    (0 < fuel)%nat ->
    last - middle < Z.of_nat fuel ->
    walk_loop b fuel fs path hash middle last e <> OutOfFuel.
Proof.
  induction fuel as [|fuel IH]; intros middle Hpos Hfuel; [lia|].
  simpl.
  destruct (hash_at fs e) as [he| |] eqn:Hat; simpl; try discriminate.
  - destruct (frogfs_get_path b fs (he_offs he)) as [found| |] eqn:Hpath;
      simpl; try discriminate.
    + destruct (strcmp path found =? 0); [discriminate|].
      destruct ((middle + 1 <? last) && (he_hash he =? hash)) eqn:Hcond;
        [|discriminate].
      apply andb_true_iff in Hcond as [Hlt _]. apply Z.ltb_lt in Hlt.
      apply IH; lia.
    + exfalso. exact (frogfs_get_path_bounded _ _ _ Hpath).
  - exfalso. exact (hash_at_not_out_of_fuel _ _ Hat).
Qed.

Lemma frogfs_get_entry_bounded (b : build_config) (fs : frogfs_fs_t)
    (path : string) :
  frogfs_get_entry b fs path <> OutOfFuel.
Proof.
  unfold frogfs_get_entry.
  destruct (search_loop _ fs _ 0 (fs_num_entries fs - 1) 0 0)
    as [[[[first last] middle] e]| |] eqn:Hs; cbn [run_bind];
    try discriminate.
  - destruct (last <? first); [discriminate|].
    destruct (rewind_loop (Z.to_nat middle) fs _ middle e)
      as [[middle' e']| |] eqn:Hr; cbn [run_bind]; try discriminate.
    + apply walk_loop_bounded; lia.
    + exfalso. revert Hr. apply rewind_loop_bounded. lia.
  - exfalso. revert Hs. apply (search_loop_bounded b). lia.
Qed.

(** ** Lookup through a hash that only one record has *)

Section UniqueHash.
Variable b : build_config.
Variable fs : frogfs_fs_t.
Variable hash offs : Z.
Variable i0 : nat.

Hypothesis Hcomplete : index_complete fs.
Hypothesis Hsorted : index_sorted fs.
Hypothesis Honly : only_record fs i0 hash offs.

Local Abbreviation table := (img_hash (fs_head fs)).

Lemma hash_at_in_range (m : Z) :
  0 <= m < Z.of_nat (List.length table) ->
  exists he, table !! Z.to_nat m = Some he /\ hash_at fs m = Done he.
Proof.
  intros Hm.
  destruct (lookup_lt_is_Some_2 table (Z.to_nat m)) as [he Hhe]; [lia|].
  exists he. split; [exact Hhe|].
  unfold hash_at. destruct (m <? 0) eqn:E; [apply Z.ltb_lt in E; lia|].
  rewrite Hhe. reflexivity.
Qed.

Lemma search_loop_finds :
  forall (fuel : nat) (first last middle e : Z),
    0 <= first ->
    first <= Z.of_nat i0 <= last ->
    last < Z.of_nat (List.length table) ->
    last - first + 1 <= Z.of_nat fuel ->
    exists first' last',
      search_loop fuel fs hash first last middle e
        = Done (first', last', Z.of_nat i0, Z.of_nat i0) /\
      first' <= Z.of_nat i0 <= last'.
Proof.
  destruct Honly as [Hi0 Huniq].
  induction fuel as [|fuel IH]; intros first last middle e H0 Hin Hlen Hfuel;
    [lia|].
  simpl.
  destruct (first <=? last) eqn:E; [|apply Z.leb_gt in E; lia].
  apply Z.leb_le in E. pose proof (middle_between first last E) as Hm.
  set (m := first + Z.quot (last - first) 2) in *.
  destruct (hash_at_in_range m) as (he & Hhe & ->); [lia|].
  cbn [run_bind].
  destruct (he_hash he =? hash) eqn:Heq.
  - apply Z.eqb_eq in Heq.
    assert (Z.to_nat m = i0) as Hmi by (eapply Huniq; eauto).
    replace m with (Z.of_nat i0) by lia.
    exists first, last. split; [reflexivity|lia].
  - apply Z.eqb_neq in Heq.
    destruct (he_hash he <? hash) eqn:Hlt.
    + apply Z.ltb_lt in Hlt.
      assert (m < Z.of_nat i0).
      { destruct (Z_lt_le_dec m (Z.of_nat i0)) as [|Hge]; [assumption|].
        pose proof (Hsorted i0 (Z.to_nat m) _ he ltac:(lia) Hi0 Hhe) as Hs.
        simpl in Hs. lia. }
      apply IH; lia.
    + apply Z.ltb_ge in Hlt.
      assert (Z.of_nat i0 < m).
      { destruct (Z_lt_le_dec (Z.of_nat i0) m) as [|Hge]; [assumption|].
        pose proof (Hsorted (Z.to_nat m) i0 he _ ltac:(lia) Hhe Hi0) as Hs.
        simpl in Hs. lia. }
      apply IH; lia.
Qed.

Lemma rewind_loop_stays (e : Z) :
  e = Z.of_nat i0 ->
  rewind_loop (Z.to_nat e) fs hash e e = Done (e, e).
Proof.
  intros ->. destruct Honly as [Hi0 Huniq].
  pose proof (lookup_lt_Some _ _ _ Hi0) as Hlt.
  destruct i0 as [|i] eqn:Ei; [reflexivity|].
  rewrite Nat2Z.id. simpl rewind_loop.
  destruct (0 <? Z.of_nat (S i)) eqn:E; [|apply Z.ltb_ge in E; lia].
  destruct (hash_at_in_range (Z.of_nat (S i) - 1)) as (he & Hhe & ->); [lia|].
  cbn [run_bind].
  destruct (he_hash he =? hash) eqn:Heq; [|reflexivity].
  apply Z.eqb_eq in Heq.
  pose proof (Huniq _ _ Hhe Heq). lia.
Qed.

(** A path whose hash a single record carries is resolved to that
    record's entry as soon as the entry's reconstructed path is the
    path asked for. *)
Lemma frogfs_get_entry_unique (path found : string) :
  hash = djb2_hash (abi b) (skip_slashes path) ->
  frogfs_get_path b fs offs = Done found ->
  strcmp (skip_slashes path) found = 0 ->
  frogfs_get_entry b fs path = Done (Some offs).
Proof.
  intros Hhash Hpath Hcmp.
  pose proof Honly as [Hi0 Huniq].
  pose proof (lookup_lt_Some _ _ _ Hi0) as Hlt.
  unfold frogfs_get_entry. rewrite <- Hhash.
  red in Hcomplete.
  destruct (search_loop_finds
              (Z.to_nat (fs_num_entries fs - 1 - 0 + 1))
              0 (fs_num_entries fs - 1) 0 0)
    as (first' & last' & -> & Hbetween); try lia.
  cbn [run_bind].
  destruct (last' <? first') eqn:E; [apply Z.ltb_lt in E; lia|].
  rewrite rewind_loop_stays by reflexivity.
  cbn [run_bind]. simpl walk_loop.
  destruct (hash_at_in_range (Z.of_nat i0)) as (he & Hhe & ->); [lia|].
  rewrite Nat2Z.id in Hhe.
  assert (he = {| he_hash := hash; he_offs := offs |}) as -> by congruence.
  cbn [run_bind he_offs]. rewrite Hpath. cbn [run_bind].
  rewrite Hcmp. reflexivity.
Qed.
End UniqueHash.

(** ** Resolving the root, leading slashes, and tied hashes *)

Lemma ascending_head (x : frogfs_hash_t) (l : list frogfs_hash_t) :
  ascending (x :: l) = true ->
  forall (j : nat) (y : frogfs_hash_t), l !! j = Some y -> he_hash x <= he_hash y.
Proof.
  revert x. induction l as [|z l IH]; intros x Hasc j y Hj.
  - discriminate.
  - simpl in Hasc. apply andb_true_iff in Hasc as [Hxz Hrest].
    apply Z.leb_le in Hxz.
    destruct j as [|j]; simpl in Hj.
    + inversion Hj; subst. exact Hxz.
    + pose proof (IH z Hrest j y Hj). lia.
Qed.

Lemma ascending_sorted (fs : frogfs_fs_t) :
  ascending (img_hash (fs_head fs)) = true -> index_sorted fs.
Proof.
  unfold index_sorted. generalize (img_hash (fs_head fs)). intros l.
  induction l as [|z l IH]; intros Hasc i j x y Hij Hx Hy.
  - discriminate.
  - destruct i as [|i], j as [|j]; simpl in Hx, Hy.
    + inversion Hx; inversion Hy; subst. lia.
    + inversion Hx; subst. eapply ascending_head; eauto.
    + lia.
    + apply (IH ltac:(destruct l; [reflexivity|];
                      simpl in Hasc; apply andb_true_iff in Hasc; tauto)
               i j x y); [lia|assumption|assumption].
Qed.

Lemma skip_slashes_slashes (n : nat) (p : string) :
  skip_slashes (slashes n ++ p) = skip_slashes p.
Proof. induction n as [|n IH]; simpl; [reflexivity|exact IH]. Qed.

(** Whatever the walk returns, it is the entry of the one record [e]
    points at: the other records of the tie group are never read. *)
Lemma walk_loop_single_candidate (b : build_config) (fs : frogfs_fs_t)
    (path : string) (hash last e : Z) :
  forall (fuel : nat) (middle : Z) (entry : Z),
    walk_loop b fuel fs path hash middle last e = Done (Some entry) ->
    exists he, hash_at fs e = Done he /\ entry = he_offs he.
Proof.
  induction fuel as [|fuel IH]; intros middle entry; simpl; [discriminate|].
  destruct (hash_at fs e) as [he| |] eqn:Hat; cbn [run_bind]; try discriminate.
  destruct (frogfs_get_path b fs (he_offs he)) as [found| |];
    cbn [run_bind]; try discriminate.
  destruct (strcmp path found =? 0).
  - intros [= <-]. exists he. split; reflexivity.
  - destruct ((middle + 1 <? last) && (he_hash he =? hash)); [|discriminate].
    intros Hrec. destruct (IH _ _ Hrec) as (he' & Hhe' & ->).
    exists he'. split; [assumption|reflexivity].
Qed.

(** C1: in an image that keeps the format invariants and stores [bC] and
    [cb], whose hashes are equal, the resolver finds [bC] and answers
    [NULL] for [cb]: the walk reads the same record of the tie group at
    every turn. *)
Theorem frogfs_get_entry_misses_tied_entry :
  index_complete tie_fs /\ index_sorted tie_fs /\
  frogfs_get_path host_build tie_fs 60 = Done "bC" /\
  frogfs_get_path host_build tie_fs 80 = Done "cb" /\
  djb2_hash (abi host_build) "bC" = djb2_hash (abi host_build) "cb" /\
  frogfs_get_entry host_build tie_fs "bC" = Done (Some 60) /\
  frogfs_get_entry host_build tie_fs "cb" = Done None.
Proof.
  split; [reflexivity|]. split; [apply ascending_sorted; reflexivity|].
  repeat split; vm_compute; reflexivity.
Qed.

(** C5, counterexample: bound on an image whose index does not list the
    root directory, the resolver answers [NULL] for the empty path. *)
Lemma frogfs_get_entry_unindexed_root :
  frogfs_init host_build no_flash (conf_of unindexed_root_image)
    = inr (bound unindexed_root_image) /\
  img_entries unindexed_root_image !! fs_root (bound unindexed_root_image)
    = Some (mk_dir 0 "" [40]) /\
  frogfs_get_entry host_build (bound unindexed_root_image) "" = Done None /\
  frogfs_get_entry host_build (bound unindexed_root_image) "/" = Done None.
Proof. repeat split; vm_compute; reflexivity. Qed.

(** C5, as the code has it: the empty remainder is hashed and looked up
    like any other path.  Where the ascending index holds one record of
    hash 5381 and that record points at the root directory, every path
    made of slashes only resolves to the root. *)
Theorem frogfs_get_entry_root (b : build_config) (fs : frogfs_fs_t)
    (i0 : nat) (root : frogfs_entry_t) (n : nat) :
  index_complete fs ->
  index_sorted fs ->
  only_record fs i0 5381 (fs_root fs) ->
  img_entries (fs_head fs) !! fs_root fs = Some root ->
  e_parent root = 0 ->
  frogfs_get_entry b fs (slashes n) = Done (Some (fs_root fs)).
Proof.
  intros Hcomplete Hsorted Honly Hroot Hparent.
  assert (Hskip : skip_slashes (slashes n) = "").
  { clear. induction n as [|n IH]; simpl; [reflexivity|exact IH]. }
  apply (frogfs_get_entry_unique b fs 5381 (fs_root fs) i0
           Hcomplete Hsorted Honly (slashes n) "").
  - rewrite Hskip. reflexivity.
  - unfold frogfs_get_path, load_entry. rewrite Hroot. cbn [load run_bind].
    rewrite Hparent. reflexivity.
  - rewrite Hskip. reflexivity.
Qed.

Lemma demo_only_root : only_record demo_fs 0 5381 (fs_root demo_fs).
Proof.
  split; [reflexivity|].
  intros j y Hj Hy.
  do 7 (destruct j as [|j]; [inversion Hj; subst; simpl in Hy; try lia|]);
    discriminate.
Defined.

Lemma frogfs_get_entry_root_witness :
  frogfs_get_entry host_build demo_fs "///" = Done (Some 72).
Proof.
  apply (frogfs_get_entry_root host_build demo_fs 0 (mk_dir 0 "" [96; 180; 208]) 3).
  - reflexivity.
  - apply ascending_sorted. reflexivity.
  - exact demo_only_root.
  - reflexivity.
  - reflexivity.
Defined.

(** C6: any number of leading slashes leaves the answer of the resolver
    unchanged, be it an entry or [NULL]; and the resolver does answer
    (its loops are bounded). *)
Theorem frogfs_get_entry_leading_slashes (b : build_config)
    (fs : frogfs_fs_t) (p : string) :
  (forall n : nat,
     frogfs_get_entry b fs (slashes n ++ p) = frogfs_get_entry b fs p) /\
  frogfs_get_entry b fs ("/" ++ p) = frogfs_get_entry b fs p /\
  frogfs_get_entry b fs ("///" ++ p) = frogfs_get_entry b fs p /\
  frogfs_get_entry b fs p <> OutOfFuel.
Proof.
  assert (H : forall n : nat,
    frogfs_get_entry b fs (slashes n ++ p) = frogfs_get_entry b fs p).
  { intros n. unfold frogfs_get_entry.
    rewrite skip_slashes_slashes. reflexivity. }
  split; [exact H|]. split; [exact (H 1%nat)|]. split; [exact (H 3%nat)|].
  apply frogfs_get_entry_bounded.
Qed.

(** ** Status and open *)

(** C7: what [frogfs_stat] reports for a directory, for a file stored
    as is, and for a compressed file. *)
Theorem frogfs_stat_fields (fs : frogfs_fs_t) (entry : Z) (e : frogfs_entry_t) :
  img_entries (fs_head fs) !! entry = Some e ->
  (frogfs_is_dir e = true ->
     frogfs_stat fs entry =
       Done {| st_type := FROGFS_ENTRY_TYPE_DIR; st_compression := 0;
               st_compressed_sz := 0; st_size := 0 |}) /\
  (frogfs_is_file e = true -> e_compression e = 0 ->
     frogfs_stat fs entry =
       Done {| st_type := FROGFS_ENTRY_TYPE_FILE; st_compression := 0;
               st_compressed_sz := e_data_sz e; st_size := e_data_sz e |}) /\
  (frogfs_is_file e = true -> e_compression e <> 0 ->
     frogfs_stat fs entry =
       Done {| st_type := FROGFS_ENTRY_TYPE_FILE;
               st_compression := e_compression e;
               st_compressed_sz := e_data_sz e; st_size := e_real_sz e |}).
Proof.
  intros Hload. unfold frogfs_stat, load_entry, frogfs_is_dir, frogfs_is_file.
  rewrite Hload. cbn [load run_bind].
  unfold FROGFS_IS_DIR, FROGFS_IS_FILE.
  destruct (e_type e); repeat split; intros; try discriminate; try reflexivity.
  - replace (e_compression e) with 0 by congruence. reflexivity.
  - destruct (e_compression e =? 0) eqn:E; [apply Z.eqb_eq in E; lia|].
    reflexivity.
Qed.

Lemma frogfs_stat_fields_witness :
  frogfs_stat demo_fs 96 =
    Done {| st_type := FROGFS_ENTRY_TYPE_DIR; st_compression := 0;
            st_compressed_sz := 0; st_size := 0 |} /\
  frogfs_stat demo_fs 208 =
    Done {| st_type := FROGFS_ENTRY_TYPE_FILE; st_compression := 0;
            st_compressed_sz := 13; st_size := 13 |} /\
  frogfs_stat demo_fs 180 =
    Done {| st_type := FROGFS_ENTRY_TYPE_FILE; st_compression := 1;
            st_compressed_sz := 312; st_size := 1024 |}.
Proof.
  split; [|split].
  - apply (frogfs_stat_fields demo_fs 96 (mk_dir 72 "etc" [120; 140; 160]));
      reflexivity.
  - apply (frogfs_stat_fields demo_fs 208 (mk_file 72 "index.html" 0 560 13 0));
      reflexivity.
  - apply (frogfs_stat_fields demo_fs 180 (mk_file 72 "big.txt" 1 248 312 1024));
      [reflexivity|reflexivity|discriminate].
Defined.

Section OpenFacts.
Variable b : build_config.
Variable decomp_open :
  frogfs_decomp_funcs_t -> option (frogfs_fh_t -> Z -> option frogfs_fh_t).

Lemma frogfs_open_file (fs : frogfs_fs_t) (entry : Z) (e : frogfs_entry_t)
    (flags : Z) :
  img_entries (fs_head fs) !! entry = Some e ->
  frogfs_is_file e = true ->
  frogfs_open b decomp_open fs entry flags =
    match select_driver b e flags with
    | Some (real_sz, funcs) =>
        Done (driver_open decomp_open
                (filled_handle fs entry e flags real_sz funcs) flags)
    | None => Done (inl OPEN_UNKNOWN_COMP)
    end.
Proof.
  intros Hload Hfile. unfold frogfs_open, load_entry.
  rewrite Hload. cbn [load run_bind].
  unfold frogfs_is_file, FROGFS_IS_FILE in Hfile. unfold FROGFS_IS_DIR.
  destruct (e_type e); [discriminate|].
  destruct (select_driver b e flags) as [[real_sz funcs]|]; reflexivity.
Qed.

Lemma driver_open_no_hook (fh : frogfs_fh_t) (flags : Z) :
  decomp_open (fh_decomp_funcs fh) = None ->
  driver_open decomp_open fh flags = inr fh.
Proof. intros H. unfold driver_open. rewrite H. reflexivity. Qed.
End OpenFacts.

(** C8: [frogfs_open] turns directories away; for a file it goes down
    the selection table: the handle it hands to the driver's [open] has
    the driver and the logical size of the row that applies, and the
    call fails on a tag no row takes.  The fields of the handle are
    written out; where the selected driver has no [open] member that
    handle is the one returned. *)
Theorem frogfs_open_selects (b : build_config)
    (decomp_open :
       frogfs_decomp_funcs_t -> option (frogfs_fh_t -> Z -> option frogfs_fh_t))
    (fs : frogfs_fs_t) (entry : Z) (e : frogfs_entry_t) (flags : Z) :
  img_entries (fs_head fs) !! entry = Some e ->
  let opened := frogfs_open b decomp_open fs entry flags in
  let selects (real_sz : Z) (funcs : frogfs_decomp_funcs_t) :=
    exists fh : frogfs_fh_t,
      fh_decomp_funcs fh = funcs /\
      fh_real_sz fh = real_sz /\
      fh_data_sz fh = e_data_sz e /\
      fh_data_start fh = e_data_offs e /\
      fh_data_ptr fh = e_data_offs e /\
      fh_flags fh = flags /\
      fh_file fh = entry /\
      fh_fs fh = fs /\
      opened =
        match decomp_open funcs with
        | None => Done (inr fh)
        | Some open =>
            match open fh flags with
            | Some fh' => Done (inr fh')
            | None => Done (inl OPEN_DECOMP_FAILED)
            end
        end in
  (frogfs_is_dir e = true -> opened = Done (inl OPEN_IS_DIR)) /\
  (frogfs_is_file e = true ->
     (e_compression e = 0 \/ raw_flag b flags = true ->
        selects (e_data_sz e) frogfs_decomp_raw) /\
     (e_compression e <> 0 -> raw_flag b flags = false ->
        (e_compression e = FROGFS_COMP_ALGO_DEFLATE ->
         CONFIG_FROGFS_USE_DEFLATE b = true ->
           selects (e_real_sz e) frogfs_decomp_deflate) /\
        (e_compression e = FROGFS_COMP_ALGO_HEATSHRINK ->
         CONFIG_FROGFS_USE_HEATSHRINK b = true ->
           selects (e_real_sz e) frogfs_decomp_heatshrink) /\
        (~ (e_compression e = FROGFS_COMP_ALGO_DEFLATE /\
            CONFIG_FROGFS_USE_DEFLATE b = true) ->
         ~ (e_compression e = FROGFS_COMP_ALGO_HEATSHRINK /\
            CONFIG_FROGFS_USE_HEATSHRINK b = true) ->
           opened = Done (inl OPEN_UNKNOWN_COMP)))).
Proof.
  intros Hload opened selects.
  assert (Hsel : forall real_sz funcs,
            select_driver b e flags = Some (real_sz, funcs) ->
            frogfs_is_file e = true -> selects real_sz funcs).
  { intros real_sz funcs Hs Hfile. subst selects opened.
    exists (filled_handle fs entry e flags real_sz funcs).
    repeat (split; [reflexivity|]).
    rewrite (frogfs_open_file b decomp_open fs entry e flags Hload Hfile), Hs.
    unfold driver_open. cbn [filled_handle fh_decomp_funcs].
    destruct (decomp_open funcs) as [open|]; [|reflexivity].
    destruct (open _ flags); reflexivity. }
  split.
  - intros Hdir. subst opened. unfold frogfs_open, load_entry. rewrite Hload.
    cbn [load run_bind]. unfold frogfs_is_dir in Hdir. rewrite Hdir.
    reflexivity.
  - intros Hfile. split.
    + intros Hrow. apply Hsel; [|exact Hfile]. unfold select_driver.
      destruct Hrow as [Hz|Hraw].
      * rewrite Hz. reflexivity.
      * rewrite Hraw, orb_true_r. reflexivity.
    + intros Hnz Hraw.
      assert (E0 : (e_compression e =? 0) = false) by (apply Z.eqb_neq; exact Hnz).
      repeat split.
      * intros Hc Hd. apply Hsel; [|exact Hfile]. unfold select_driver.
        rewrite E0, Hraw, Hd, Hc. reflexivity.
      * intros Hc Hh. apply Hsel; [|exact Hfile]. unfold select_driver.
        rewrite E0, Hraw, Hh, Hc. rewrite andb_false_r. reflexivity.
      * intros Hd Hh. subst opened.
        rewrite (frogfs_open_file b decomp_open fs entry e flags Hload Hfile).
        unfold select_driver. rewrite E0, Hraw. cbn [orb].
        destruct (CONFIG_FROGFS_USE_DEFLATE b) eqn:Cd,
                 (CONFIG_FROGFS_USE_HEATSHRINK b) eqn:Ch,
                 (e_compression e =? FROGFS_COMP_ALGO_DEFLATE) eqn:E1,
                 (e_compression e =? FROGFS_COMP_ALGO_HEATSHRINK) eqn:E2;
          try apply Z.eqb_eq in E1; try apply Z.eqb_eq in E2;
          simpl; try reflexivity; tauto.
Qed.

Lemma frogfs_open_selects_witness :
  (exists fh : frogfs_fh_t,
     fh_decomp_funcs fh = frogfs_decomp_deflate /\
     fh_real_sz fh = 1024 /\ fh_data_sz fh = 312 /\
     fh_data_start fh = 248 /\ fh_data_ptr fh = 248 /\
     fh_flags fh = 0 /\ fh_file fh = 180 /\ fh_fs fh = demo_fs /\
     frogfs_open host_build no_open_hooks demo_fs 180 0 = Done (inr fh)) /\
  (exists fh : frogfs_fh_t,
     fh_decomp_funcs fh = frogfs_decomp_raw /\
     fh_real_sz fh = 312 /\ fh_data_sz fh = 312 /\
     fh_data_start fh = 248 /\ fh_data_ptr fh = 248 /\
     fh_flags fh = 1 /\ fh_file fh = 180 /\ fh_fs fh = demo_fs /\
     frogfs_open host_build no_open_hooks demo_fs 180 1 = Done (inr fh)) /\
  frogfs_open host_build no_open_hooks demo_fs 96 0 = Done (inl OPEN_IS_DIR).
Proof.
  pose proof (frogfs_open_selects host_build no_open_hooks demo_fs 180
                (mk_file 72 "big.txt" 1 248 312 1024) 0 eq_refl) as [_ H0].
  pose proof (frogfs_open_selects host_build no_open_hooks demo_fs 180
                (mk_file 72 "big.txt" 1 248 312 1024) 1 eq_refl) as [_ H1].
  pose proof (frogfs_open_selects host_build no_open_hooks demo_fs 96
                (mk_dir 72 "etc" [120; 140; 160]) 0 eq_refl) as [Hd _].
  split; [|split].
  - destruct (H0 eq_refl) as [_ Hc].
    destruct (Hc ltac:(discriminate) eq_refl) as [Hdeflate _].
    exact (Hdeflate eq_refl eq_refl).
  - destruct (H1 eq_refl) as [Hraw _].
    exact (Hraw (or_intror eq_refl)).
  - exact (Hd eq_refl).
Defined.

(** C9: on a file stored as is, the handle does not depend on the flags
    beyond the [flags] field itself: the raw driver and [data_sz] as the
    logical size whether [FROGFS_OPEN_RAW] is set or not; reads, seeks
    and tells then go to the same members of the raw driver, and give
    the same results wherever those members do not look at the flags. *)
Theorem frogfs_open_raw_flag_uncompressed (b : build_config)
    (decomp_open :
       frogfs_decomp_funcs_t -> option (frogfs_fh_t -> Z -> option frogfs_fh_t))
    (fs : frogfs_fs_t) (entry : Z) (e : frogfs_entry_t) :
  img_entries (fs_head fs) !! entry = Some e ->
  frogfs_is_file e = true ->
  e_compression e = 0 ->
  let fh0 := filled_handle fs entry e 0 (e_data_sz e) frogfs_decomp_raw in
  (forall flags : Z,
     frogfs_open b decomp_open fs entry flags =
       Done (driver_open decomp_open (set_flags fh0 flags) flags)) /\
  (decomp_open frogfs_decomp_raw = None ->
   forall flags : Z,
     frogfs_open b decomp_open fs entry flags = Done (inr (set_flags fh0 flags))) /\
  (forall flags : Z,
     let fh := set_flags fh0 flags in
     fh_data_start fh = fh_data_start fh0 /\
     fh_data_ptr fh = fh_data_ptr fh0 /\
     fh_data_sz fh = e_data_sz e /\
     fh_real_sz fh = e_data_sz e /\
     fh_decomp_funcs fh = frogfs_decomp_raw /\
     frogfs_access fh = frogfs_access fh0) /\
  (forall (R S T : Type)
          (decomp_read : frogfs_decomp_funcs_t -> option (frogfs_fh_t -> Z -> R))
          (decomp_seek : frogfs_decomp_funcs_t -> option (frogfs_fh_t -> Z -> Z -> S))
          (decomp_tell : frogfs_decomp_funcs_t -> option (frogfs_fh_t -> T))
          (flags : Z),
     (forall read, decomp_read frogfs_decomp_raw = Some read -> ignores_flags read) ->
     (forall seek, decomp_seek frogfs_decomp_raw = Some seek -> ignores_flags seek) ->
     (forall tell, decomp_tell frogfs_decomp_raw = Some tell -> ignores_flags tell) ->
     (forall len, frogfs_read decomp_read (set_flags fh0 flags) len
                  = frogfs_read decomp_read fh0 len) /\
     (forall offset mode,
        frogfs_seek decomp_seek (set_flags fh0 flags) offset mode
        = frogfs_seek decomp_seek fh0 offset mode) /\
     frogfs_tell decomp_tell (set_flags fh0 flags) = frogfs_tell decomp_tell fh0).
Proof.
  intros Hload Hfile Hz fh0.
  assert (Hopen : forall flags : Z,
     frogfs_open b decomp_open fs entry flags =
       Done (driver_open decomp_open (set_flags fh0 flags) flags)).
  { intros flags.
    rewrite (frogfs_open_file b decomp_open fs entry e flags Hload Hfile).
    unfold select_driver. rewrite Hz. reflexivity. }
  split; [exact Hopen|]. split; [|split].
  - intros Hnone flags. rewrite Hopen.
    rewrite driver_open_no_hook; [reflexivity|exact Hnone].
  - intros flags. repeat split.
  - intros R S T rd sk tl flags Hrd Hsk Htl.
    unfold frogfs_read, frogfs_seek, frogfs_tell. cbn [set_flags fh_decomp_funcs].
    subst fh0. cbn [filled_handle fh_decomp_funcs].
    repeat split.
    + intros len. destruct (rd frogfs_decomp_raw) as [read|] eqn:E; [|reflexivity].
      rewrite (Hrd read eq_refl). reflexivity.
    + intros offset mode.
      destruct (sk frogfs_decomp_raw) as [seek|] eqn:E; [|reflexivity].
      rewrite (Hsk seek eq_refl). reflexivity.
    + destruct (tl frogfs_decomp_raw) as [tell|] eqn:E; [|reflexivity].
      rewrite (Htl tell eq_refl). reflexivity.
Qed.

Lemma frogfs_open_raw_flag_uncompressed_witness :
  frogfs_open host_build no_open_hooks demo_fs 208 (FROGFS_OPEN_RAW host_build)
    = Done (inr (set_flags
                   (filled_handle demo_fs 208
                      (mk_file 72 "index.html" 0 560 13 0) 0 13 frogfs_decomp_raw)
                   (FROGFS_OPEN_RAW host_build))) /\
  frogfs_open host_build no_open_hooks demo_fs 208 0
    = Done (inr (filled_handle demo_fs 208
                   (mk_file 72 "index.html" 0 560 13 0) 0 13 frogfs_decomp_raw)).
Proof.
  destruct (frogfs_open_raw_flag_uncompressed host_build no_open_hooks demo_fs 208
              (mk_file 72 "index.html" 0 560 13 0) eq_refl eq_refl eq_refl)
    as (_ & H & _).
  split.
  - exact (H eq_refl (FROGFS_OPEN_RAW host_build)).
  - exact (H eq_refl 0).
Defined.

(** ** Directory cursor *)

Section Cursor.
Variable dh0 : frogfs_dh_t.
Variable d : Z.
Variable dir : frogfs_entry_t.

Hypothesis Hon : handle_on dh0 d dir.
Hypothesis Hchildren : children_present dir.

(** The handles that differ from [dh0] by the cursor only. *)
Local Abbreviation at_index i := (set_index dh0 i).

Lemma frogfs_readdir_at (i : Z) :
  0 <= i ->
  frogfs_readdir (at_index i) =
    if i <? e_child_count dir
    then match e_children dir !! Z.to_nat i with
         | Some child => Done (Some child, at_index (to_uint16 (i + 1)))
         | None => Fault
         end
    else Done (None, at_index i).
Proof.
  intros Hi. destruct Hon as [Hdir Hload].
  unfold frogfs_readdir, at_index, load_entry. cbn [set_index dh_dir dh_fs dh_index].
  rewrite Hdir, Hload. cbn [load run_bind].
  destruct (i <? e_child_count dir); [|reflexivity].
  destruct (i <? 0) eqn:E; [apply Z.ltb_lt in E; lia|].
  destruct (e_children dir !! Z.to_nat i); reflexivity.
Qed.

Lemma frogfs_readdir_advances (i : Z) :
  0 <= i < e_child_count dir ->
  exists child,
    frogfs_readdir (at_index i)
      = Done (Some child, at_index (to_uint16 (i + 1))) /\
    0 <= to_uint16 (i + 1) <= e_child_count dir.
Proof.
  intros Hi. rewrite frogfs_readdir_at by lia.
  destruct (i <? e_child_count dir) eqn:E; [|apply Z.ltb_ge in E; lia].
  destruct (lookup_lt_is_Some_2 (e_children dir) (Z.to_nat i)) as [child Hc].
  { red in Hchildren. lia. }
  rewrite Hc. exists child. split; [reflexivity|].
  unfold to_uint16.
  pose proof (Z.mod_pos_bound (i + 1) (2 ^ 16) ltac:(lia)).
  pose proof (Z.mod_le (i + 1) (2 ^ 16) ltac:(lia) ltac:(lia)). lia.
Qed.

Lemma frogfs_readdir_at_end (i : Z) :
  0 <= i -> e_child_count dir <= i ->
  frogfs_readdir (at_index i) = Done (None, at_index i).
Proof.
  intros Hi Hend. rewrite frogfs_readdir_at by lia.
  destruct (i <? e_child_count dir) eqn:E; [apply Z.ltb_lt in E; lia|].
  reflexivity.
Qed.

Lemma dir_call_run_bounded (c : dir_call) (i : Z) :
  0 <= i <= e_child_count dir ->
  exists i', dir_call_run c (at_index i) = Done (at_index i') /\
             0 <= i' <= e_child_count dir.
Proof.
  intros Hi. destruct c; simpl.
  - destruct (Z_lt_le_dec i (e_child_count dir)) as [Hlt|Hge].
    + destruct (frogfs_readdir_advances i ltac:(lia)) as (child & -> & Hb).
      eexists. split; [reflexivity|exact Hb].
    + rewrite frogfs_readdir_at_end by lia.
      exists i. split; [reflexivity|lia].
  - exists 0. split; [reflexivity|lia].
  - exists i. split; [reflexivity|lia].
Qed.

Lemma dir_calls_run_bounded (cs : list dir_call) :
  forall i : Z,
    0 <= i <= e_child_count dir ->
    exists i', dir_calls_run cs (at_index i) = Done (at_index i') /\
               0 <= i' <= e_child_count dir.
Proof.
  induction cs as [|c cs IH]; intros i Hi; simpl.
  - exists i. split; [reflexivity|exact Hi].
  - destruct (dir_call_run_bounded c i Hi) as (i1 & -> & Hi1).
    cbn [run_bind]. apply IH. exact Hi1.
Qed.

(** Within the directory a seek lands where it is asked to. *)
Lemma seekdir_loop_reaches (loc : Z) :
  loc <= e_child_count dir -> loc < 2 ^ 16 ->
  forall (fuel : nat) (i : Z),
    0 <= i <= loc ->
    loc - i <= Z.of_nat fuel ->
    seekdir_loop fuel (at_index i) loc = Done (at_index loc).
Proof.
  intros Hloc H16.
  induction fuel as [|fuel IH]; intros i Hi Hfuel; simpl;
    unfold at_index at 1; cbn [set_index dh_index];
    destruct (i <? loc) eqn:E;
    try (apply Z.ltb_ge in E; replace i with loc by lia; reflexivity);
    apply Z.ltb_lt in E; [lia|].
  destruct (frogfs_readdir_advances i ltac:(lia)) as (child & Hrd & _).
  fold (at_index i). rewrite Hrd. cbn [run_bind snd].
  unfold to_uint16. rewrite Z.mod_small by lia.
  apply IH; lia.
Qed.

(** Past the end the cursor stops at [child_count] and the loop of
    [frogfs_seekdir] goes on calling [frogfs_readdir] for ever. *)
Lemma seekdir_loop_stuck (loc : Z) :
  e_child_count dir < loc ->
  forall (fuel : nat) (i : Z),
    0 <= i <= e_child_count dir ->
    seekdir_loop fuel (at_index i) loc = OutOfFuel.
Proof.
  intros Hloc.
  induction fuel as [|fuel IH]; intros i Hi; simpl;
    unfold at_index at 1; cbn [set_index dh_index];
    (destruct (i <? loc) eqn:E; [|apply Z.ltb_ge in E; lia]);
    [reflexivity|].
  fold (at_index i).
  destruct (Z_lt_le_dec i (e_child_count dir)) as [Hlt|Hge].
  - destruct (frogfs_readdir_advances i ltac:(lia)) as (child & -> & Hb).
    cbn [run_bind snd]. apply IH. exact Hb.
  - rewrite frogfs_readdir_at_end by lia.
    cbn [run_bind snd]. apply IH. exact Hi.
Qed.
End Cursor.

(** A handle starts with its cursor at 0. *)
Lemma frogfs_opendir_cursor (fs : frogfs_fs_t) (entry : option Z)
    (dh : frogfs_dh_t) :
  frogfs_opendir fs entry = Done (Some dh) ->
  dh_index dh = 0 /\ dh_fs dh = fs /\
  dh_dir dh = Some (match entry with Some p => p | None => fs_root fs end).
Proof.
  unfold frogfs_opendir. destruct entry as [p|].
  - destruct (load_entry fs p) as [e| |]; cbn [run_bind]; try discriminate.
    destruct (FROGFS_IS_FILE e); [discriminate|].
    intros [= <-]. repeat split.
  - intros [= <-]. repeat split.
Qed.

Lemma set_index_same (dh : frogfs_dh_t) : set_index dh (dh_index dh) = dh.
Proof. destruct dh; reflexivity. Qed.

Lemma handle_on_set_index (dh : frogfs_dh_t) (d : Z) (dir : frogfs_entry_t) (i : Z) :
  handle_on dh d dir -> handle_on (set_index dh i) d dir.
Proof. intros H. exact H. Qed.

(** A seek to a position of the directory ends with the cursor there. *)
Lemma frogfs_seekdir_in_range (dh : frogfs_dh_t) (d : Z) (dir : frogfs_entry_t)
    (loc : Z) (fuel : nat) :
  handle_on dh d dir -> children_present dir ->
  0 <= loc <= e_child_count dir -> loc < 2 ^ 16 ->
  loc <= Z.of_nat fuel ->
  frogfs_seekdir fuel dh loc = Done (set_index dh loc).
Proof.
  intros Hon Hch Hloc H16 Hfuel. unfold frogfs_seekdir, frogfs_rewinddir.
  apply (seekdir_loop_reaches dh d dir Hon Hch loc); lia.
Qed.

(** A seek past the end does not return, whatever the number of turns
    the loop is given. *)
Lemma frogfs_seekdir_no_return (dh : frogfs_dh_t) (d : Z) (dir : frogfs_entry_t)
    (loc : Z) (fuel : nat) :
  handle_on dh d dir -> children_present dir ->
  0 <= e_child_count dir < loc ->
  frogfs_seekdir fuel dh loc = OutOfFuel.
Proof.
  intros Hon Hch Hloc. unfold frogfs_seekdir, frogfs_rewinddir.
  apply (seekdir_loop_stuck dh d dir Hon Hch loc); lia.
Qed.

(** C4: on the handle of [etc], which has three children, a seek to 2
    or to 3 leaves the cursor there, and a seek to 4 never returns: no
    amount of fuel lets the loop finish. *)
Theorem frogfs_seekdir_past_end :
  frogfs_readdir (set_index etc_dh 3) = Done (None, set_index etc_dh 3) /\
  frogfs_seekdir 2 etc_dh 2 = Done (set_index etc_dh 2) /\
  frogfs_seekdir 3 etc_dh 3 = Done (set_index etc_dh 3) /\
  forall fuel : nat, frogfs_seekdir fuel etc_dh 4 = OutOfFuel.
Proof.
  split; [reflexivity|]. split; [reflexivity|]. split; [reflexivity|].
  intros fuel.
  apply (frogfs_seekdir_no_return etc_dh 96 (mk_dir 72 "etc" [120; 140; 160])).
  - split; reflexivity.
  - unfold children_present. simpl. lia.
  - simpl. lia.
Qed.

(** C10: under any sequence of reads, rewinds and tells the cursor of a
    directory handle stays between 0 and [child_count]; a read at
    [child_count] answers [NULL] and leaves the handle as it is, so the
    reads that follow do the same and [frogfs_telldir] keeps answering
    [child_count]. *)
Theorem dir_index_never_exceeds (dh : frogfs_dh_t) (d : Z)
    (dir : frogfs_entry_t) (cs : list dir_call) :
  handle_on dh d dir ->
  children_present dir ->
  0 <= dh_index dh <= e_child_count dir ->
  (exists dh',
     dir_calls_run cs dh = Done dh' /\
     handle_on dh' d dir /\
     0 <= frogfs_telldir dh' <= e_child_count dir) /\
  (dh_index dh = e_child_count dir ->
     frogfs_readdir dh = Done (None, dh) /\
     forall k : nat,
       dir_calls_run (repeat CALL_READDIR k) dh = Done dh /\
       frogfs_telldir dh = e_child_count dir).
Proof.
  intros Hon Hch Hi. split.
  - destruct (dir_calls_run_bounded dh d dir Hon Hch cs (dh_index dh) Hi)
      as (i' & Hrun & Hi').
    rewrite set_index_same in Hrun.
    exists (set_index dh i'). split; [exact Hrun|].
    split; [apply handle_on_set_index; exact Hon|exact Hi'].
  - intros Hend.
    assert (Hrd : frogfs_readdir dh = Done (None, dh)).
    { pose proof (frogfs_readdir_at_end dh d dir Hon (dh_index dh)
                    ltac:(lia) ltac:(lia)) as H.
      rewrite set_index_same in H. exact H. }
    split; [exact Hrd|].
    intros k. split; [|exact Hend].
    induction k as [|k IH]; simpl; [reflexivity|].
    rewrite Hrd. cbn [run_bind snd]. exact IH.
Qed.

Lemma dir_index_never_exceeds_witness :
  exists dh',
    dir_calls_run
      [CALL_READDIR; CALL_READDIR; CALL_TELLDIR; CALL_READDIR; CALL_READDIR;
       CALL_REWINDDIR; CALL_READDIR] etc_dh = Done dh' /\
    0 <= frogfs_telldir dh' <= 3.
Proof.
  destruct (dir_index_never_exceeds etc_dh 96 (mk_dir 72 "etc" [120; 140; 160])
              [CALL_READDIR; CALL_READDIR; CALL_TELLDIR; CALL_READDIR;
               CALL_READDIR; CALL_REWINDDIR; CALL_READDIR])
    as [(dh' & Hrun & _ & Hb) _].
  - split; reflexivity.
  - unfold children_present. simpl. lia.
  - simpl. lia.
  - exists dh'. split; [exact Hrun|exact Hb].
Defined.

(** * Further properties of the code *)

(** ** [align] *)

Lemma align_inner (bits n : Z) :
  0 <= bits ->
  to_size_t bits (to_size_t bits (n + 4) - 1) = (n + 3) mod 2 ^ bits.
Proof.
  intros Hb. unfold to_size_t.
  rewrite Zminus_mod_idemp_l. f_equal. lia.
Qed.

(** X1: for a size that leaves room for the rounding, [align] gives the
    least multiple of 4 that is not below it, and is idempotent; for the
    three largest values of [size_t] the sum wraps and [align] gives 0. *)
Theorem align_next_multiple (bits n : Z) :
  2 <= bits ->
  0 <= n < 2 ^ bits ->
  (n <= 2 ^ bits - 4 ->
     n <= align bits n < n + 4 /\
     align bits n mod 4 = 0 /\
     align bits (align bits n) = align bits n) /\
  (2 ^ bits - 4 < n -> align bits n = 0).
Proof.
  intros Hbits Hn.
  assert (HM : 2 ^ bits = 4 * 2 ^ (bits - 2)).
  { replace bits with (2 + (bits - 2)) at 1 by lia.
    rewrite Z.pow_add_r by lia. reflexivity. }
  assert (HK : 0 < 2 ^ (bits - 2)) by (apply Z.pow_pos_nonneg; lia).
  assert (Hsmall : forall m, 0 <= m <= 2 ^ bits - 4 ->
            align bits m = (m + 3) / 4 * 4 /\ (m + 3) / 4 * 4 < 2 ^ bits).
  { intros m Hm. unfold align. rewrite align_inner by lia.
    rewrite (Z.mod_small (m + 3)) by lia.
    assert ((m + 3) / 4 * 4 < 2 ^ bits).
    { pose proof (Z.mul_div_le (m + 3) 4 ltac:(lia)). lia. }
    split; [|assumption].
    unfold to_size_t. apply Z.mod_small.
    pose proof (Z.div_pos (m + 3) 4 ltac:(lia) ltac:(lia)). lia. }
  split.
  - intros Hfit. destruct (Hsmall n ltac:(lia)) as [Ha Hlt].
    pose proof (Z.mul_div_le (n + 3) 4 ltac:(lia)) as Hle.
    pose proof (Z.mod_pos_bound (n + 3) 4 ltac:(lia)) as Hmod.
    pose proof (Z.div_mod (n + 3) 4 ltac:(lia)) as Hdm.
    assert (Hrange : n <= (n + 3) / 4 * 4 < n + 4) by lia.
    assert (Hmul : ((n + 3) / 4 * 4) mod 4 = 0) by apply Z_mod_mult.
    rewrite Ha. split; [exact Hrange|]. split; [exact Hmul|].
    set (a := (n + 3) / 4 * 4) in *.
    assert (Hafit : 0 <= a <= 2 ^ bits - 4).
    { split; [lia|].
      assert (a = 4 * ((n + 3) / 4)) by (unfold a; lia).
      assert ((n + 3) / 4 < 2 ^ (bits - 2)) by lia. lia. }
    destruct (Hsmall a Hafit) as [Haa _]. rewrite Haa.
    assert (a = 4 * ((n + 3) / 4)) as Hq by (unfold a; lia).
    replace (a + 3) with (3 + ((n + 3) / 4) * 4) by lia.
    rewrite Z_div_plus by lia.
    replace (3 / 4) with 0 by reflexivity. lia.
  - intros Hbig. unfold align. rewrite align_inner by lia.
    replace (n + 3) with ((n + 3 - 2 ^ bits) + 1 * 2 ^ bits) by lia.
    rewrite Z_mod_plus_full, Z.mod_small by lia.
    rewrite Z.div_small by lia. reflexivity.
Qed.

Lemma align_next_multiple_witness :
  (5 <= align 32 5 < 5 + 4 /\ align 32 5 mod 4 = 0 /\
   align 32 (align 32 5) = align 32 5) /\
  align 32 4294967294 = 0.
Proof.
  destruct (align_next_multiple 32 5 ltac:(lia) ltac:(lia)) as [H5 _].
  destruct (align_next_multiple 32 4294967294 ltac:(lia) ltac:(lia)) as [_ Hw].
  split; [exact (H5 ltac:(lia))|exact (Hw ltac:(lia))].
Defined.

(** ** More on the hash *)

Lemma djb2_hash_unsigned_char_witness :
  djb2_hash abi_esp32 (String "128"%char "a") = djb2_xor [128; 97].
Proof. exact (djb2_hash_unsigned_char abi_esp32 _ eq_refl). Defined.

Lemma djb2_hash_ascii_witness :
  djb2_hash abi_x86_64 "etc" = djb2_xor [101; 116; 99].
Proof.
  apply (djb2_hash_ascii abi_x86_64 "etc").
  simpl. repeat (constructor; [reflexivity|]). constructor.
Defined.

Lemma djb2_loop_width (signed : bool) (s : string) :
  forall h32 h64 : Z,
    to_uint32 h32 = to_uint32 h64 ->
    to_uint32 (djb2_loop {| char_signed := signed; ulong_model := LONG32 |} s h32)
    = to_uint32 (djb2_loop {| char_signed := signed; ulong_model := LONG64 |} s h64).
Proof.
  induction s as [|c s IH]; intros h32 h64 Hh; simpl.
  - exact Hh.
  - destruct (is_nul c); [exact Hh|].
    apply IH. rewrite !djb2_step_uint32, Hh. reflexivity.
Qed.

(** X4: the value of [djb2_hash] does not depend on the width of
    [unsigned long]: the 64-bit accumulator, cut to [uint32_t] on return,
    gives what the 32-bit accumulator gives. *)
Theorem djb2_hash_long_width (signed : bool) (s : string) :
  djb2_hash {| char_signed := signed; ulong_model := LONG32 |} s
  = djb2_hash {| char_signed := signed; ulong_model := LONG64 |} s.
Proof. unfold djb2_hash. apply djb2_loop_width. reflexivity. Qed.

(** ** Path reconstruction *)

Lemma string_length_append (s t : string) :
  String.length (s ++ t) = (String.length s + String.length t)%nat.
Proof.
  induction s as [|c s IH]; [reflexivity|].
  change (S (String.length (s ++ t))
          = S (String.length s + String.length t)).
  f_equal. exact IH.
Qed.

Lemma string_append_nil (s : string) : s ++ "" = s.
Proof.
  induction s as [|c s IH]; [reflexivity|].
  change (String c (s ++ "") = String c s). f_equal. exact IH.
Qed.

Lemma substring_prefix_length (n : nat) (s : string) :
  (n <= String.length s)%nat -> String.length (substring 0 n s) = n.
Proof.
  revert s. induction n as [|n IH]; intros s Hn.
  - destruct s; reflexivity.
  - destruct s as [|c s]; simpl in *; [lia|].
    rewrite IH by lia. reflexivity.
Qed.

Lemma segment_length (e : frogfs_entry_t) :
  segment_ok e -> Z.of_nat (String.length (segment e)) = e_seg_sz e.
Proof.
  intros [H0 Hlen]. unfold segment.
  rewrite substring_prefix_length by lia. lia.
Qed.

Lemma name_segment_ok (e : frogfs_entry_t) :
  segment_ok e -> name_segment e = Done (segment e).
Proof.
  intros [H0 Hlen]. unfold name_segment, frogfs_get_name, segment.
  destruct (0 <=? e_seg_sz e) eqn:E0; [|apply Z.leb_gt in E0; lia].
  destruct (e_seg_sz e <=? Z.of_nat (String.length (e_name e))) eqn:E1;
    [|apply Z.leb_gt in E1; lia].
  reflexivity.
Qed.

Lemma name_segment_done (e : frogfs_entry_t) (seg : string) :
  name_segment e = Done seg ->
  Z.of_nat (String.length seg) = e_seg_sz e.
Proof.
  unfold name_segment, frogfs_get_name.
  destruct (0 <=? e_seg_sz e) eqn:E0; simpl; [|discriminate].
  destruct (e_seg_sz e <=? Z.of_nat (String.length (e_name e))) eqn:E1;
    [|discriminate].
  apply Z.leb_le in E0. apply Z.leb_le in E1.
  intros [= <-]. rewrite substring_prefix_length by lia. lia.
Qed.

Lemma join_onto_snoc (segs : list string) (s rest : string) :
  segs <> [] ->
  join_onto (segs ++ [s])%list rest = join_onto segs ("/" ++ s ++ rest).
Proof.
  induction segs as [|x segs IH]; intros Hne; [contradiction|].
  destruct segs as [|y segs].
  - reflexivity.
  - change (join_onto ((x :: y :: segs) ++ [s])%list rest)
      with (x ++ "/" ++ join_onto ((y :: segs) ++ [s])%list rest).
    rewrite IH by discriminate. reflexivity.
Qed.

Lemma join_onto_length (segs : list string) (rest : string) :
  String.length (join_onto segs rest)
  = (String.length (join_onto segs "") + String.length rest)%nat.
Proof.
  induction segs as [|x segs IH]; [reflexivity|].
  destruct segs as [|y segs].
  - simpl. rewrite !string_length_append. simpl. lia.
  - change (join_onto (x :: y :: segs) rest)
      with (x ++ "/" ++ join_onto (y :: segs) rest).
    change (join_onto (x :: y :: segs) "")
      with (x ++ "/" ++ join_onto (y :: segs) "").
    rewrite !string_length_append, IH. simpl. lia.
Qed.

Lemma join_onto_concat (segs : list string) :
  join_onto segs "" = String.concat "/" segs.
Proof.
  induction segs as [|x segs IH]; [reflexivity|].
  destruct segs as [|y segs].
  - simpl. apply string_append_nil.
  - change (join_onto (x :: y :: segs) "")
      with (x ++ "/" ++ join_onto (y :: segs) "").
    rewrite IH. reflexivity.
Qed.

Lemma join_onto_count (segs : list string) :
  (List.length segs <= String.length (join_onto segs "") + 1)%nat.
Proof.
  induction segs as [|x segs IH]; [simpl; lia|].
  destruct segs as [|y segs].
  - simpl. lia.
  - change (join_onto (x :: y :: segs) "")
      with (x ++ "/" ++ join_onto (y :: segs) "").
    rewrite !string_length_append. simpl in *. lia.
Qed.

Lemma lineage_nonempty (fs : frogfs_fs_t) (offs : Z) (segs : list string) :
  lineage fs offs segs -> segs <> [].
Proof.
  intros H. destruct H; [discriminate|].
  destruct segs; discriminate.
Qed.

Lemma frogfs_get_path_loop_lineage (b : build_config) (fs : frogfs_fs_t)
    (offs : Z) (segs : list string) :
  lineage fs offs segs ->
  forall (fuel : nat) (path : string) (len : Z),
    (List.length segs <= fuel)%nat ->
    0 <= len ->
    len + Z.of_nat (String.length (join_onto segs "")) + 1 < PATH_MAX b - 1 ->
    frogfs_get_path_loop b fuel fs offs path len = Done (join_onto segs path).
Proof.
  induction 1 as [offs e Hload Hnz Hroot Hok
                 |offs e segs Hload Hnz Hroot Hok Hlin IH];
    intros fuel path len Hfuel Hlen Hfit.
  - destruct fuel as [|fuel]; [simpl in Hfuel; lia|].
    simpl in Hfit. rewrite string_length_append in Hfit. simpl in Hfit.
    pose proof (segment_length e Hok) as Hseg.
    simpl. unfold load_entry. rewrite Hload. cbn [load run_bind].
    destruct (e_parent e =? 0) eqn:E0; [apply Z.eqb_eq in E0; contradiction|].
    destruct (len + e_seg_sz e + 1 <? PATH_MAX b - 1) eqn:E1;
      [|apply Z.ltb_ge in E1; lia].
    cbn [negb andb]. rewrite (name_segment_ok e Hok). cbn [run_bind].
    rewrite Hroot, Z.eqb_refl. reflexivity.
  - pose proof (lineage_nonempty _ _ _ Hlin) as Hne.
    rewrite join_onto_snoc by assumption.
    rewrite join_onto_snoc, join_onto_length in Hfit by assumption.
    rewrite !string_length_append in Hfit. simpl in Hfit.
    pose proof (segment_length e Hok) as Hseg.
    rewrite length_app in Hfuel. simpl in Hfuel.
    destruct fuel as [|fuel]; [lia|].
    simpl. unfold load_entry. rewrite Hload. cbn [load run_bind].
    destruct (e_parent e =? 0) eqn:E0; [apply Z.eqb_eq in E0; contradiction|].
    destruct (len + e_seg_sz e + 1 <? PATH_MAX b - 1) eqn:E1;
      [|apply Z.ltb_ge in E1; lia].
    cbn [negb andb]. rewrite (name_segment_ok e Hok). cbn [run_bind].
    destruct (e_parent e =? fs_root fs) eqn:E2;
      [apply Z.eqb_eq in E2; contradiction|].
    apply IH; lia.
Qed.

(** X5: for an entry whose parent links lead to a child of the root, the
    reconstructed path is the segments met on the way, outermost first,
    joined by slashes, without a leading slash, as long as it leaves two
    bytes of the [PATH_MAX] buffer free. *)
Theorem frogfs_get_path_lineage (b : build_config) (fs : frogfs_fs_t)
    (offs : Z) (segs : list string) :
  lineage fs offs segs ->
  Z.of_nat (String.length (String.concat "/" segs)) + 1 < PATH_MAX b - 1 ->
  frogfs_get_path b fs offs = Done (String.concat "/" segs).
Proof.
  intros Hlin Hfit. rewrite <- join_onto_concat in *.
  pose proof (join_onto_count segs) as Hcount.
  unfold frogfs_get_path.
  assert (exists e, img_entries (fs_head fs) !! offs = Some e /\ e_parent e <> 0)
    as (e & Hload & Hnz) by (destruct Hlin; eauto).
  unfold load_entry. rewrite Hload. cbn [load run_bind].
  destruct (e_parent e =? 0) eqn:E0; [apply Z.eqb_eq in E0; contradiction|].
  apply (frogfs_get_path_loop_lineage b fs offs segs Hlin); lia.
Qed.

Lemma demo_lineage_etc_c : lineage demo_fs 160 ["etc"; "c"].
Proof.
  apply (lineage_sub demo_fs 160 (mk_file 96 "c" 0 244 1 0) ["etc"]).
  - reflexivity.
  - discriminate.
  - discriminate.
  - split; simpl; lia.
  - apply (lineage_top demo_fs 96 (mk_dir 72 "etc" [120; 140; 160])).
    + reflexivity.
    + discriminate.
    + reflexivity.
    + split; simpl; lia.
Defined.

Lemma frogfs_get_path_lineage_witness :
  frogfs_get_path host_build demo_fs 160 = Done "etc/c".
Proof.
  apply (frogfs_get_path_lineage host_build demo_fs 160 ["etc"; "c"]).
  - exact demo_lineage_etc_c.
  - simpl. lia.
Defined.

Lemma frogfs_get_path_loop_fits (b : build_config) (fs : frogfs_fs_t)
    (p : string) :
  forall (fuel : nat) (offs : Z) (path : string) (len : Z),
    len = Z.of_nat (String.length path) ->
    frogfs_get_path_loop b fuel fs offs path len = Done p ->
    p = path \/ Z.of_nat (String.length p) < PATH_MAX b - 1.
Proof.
  induction fuel as [|fuel IH]; intros offs path len Hlen; simpl;
    [discriminate|].
  destruct (load_entry fs offs) as [e| |]; cbn [run_bind]; try discriminate.
  destruct (negb (e_parent e =? 0)
            && (len + e_seg_sz e + 1 <? PATH_MAX b - 1)) eqn:Hcond.
  - apply andb_true_iff in Hcond as [_ Hlt]. apply Z.ltb_lt in Hlt.
    destruct (name_segment e) as [seg| |] eqn:Hseg; cbn [run_bind];
      try discriminate.
    apply name_segment_done in Hseg.
    destruct (e_parent e =? fs_root fs).
    + intros [= <-]. right. rewrite string_length_append. lia.
    + intros Hrec.
      assert (Hlen' : len + e_seg_sz e + 1
                      = Z.of_nat (String.length ("/" ++ seg ++ path))).
      { rewrite !string_length_append. simpl. lia. }
      destruct (IH _ _ _ Hlen' Hrec) as [->|Hfit]; right; [lia|exact Hfit].
  - intros [= <-]. left. reflexivity.
Qed.

(** X6: whatever the image holds, a path that [frogfs_get_path] returns
    is empty or shorter than [PATH_MAX - 1]: the walk stops before a
    segment that would not fit, so the buffer is never overrun. *)
Theorem frogfs_get_path_fits (b : build_config) (fs : frogfs_fs_t)
    (offs : Z) (p : string) :
  frogfs_get_path b fs offs = Done p ->
  p = "" \/ Z.of_nat (String.length p) < PATH_MAX b - 1.
Proof.
  unfold frogfs_get_path.
  destruct (load_entry fs offs) as [e| |]; cbn [run_bind]; try discriminate.
  destruct (e_parent e =? 0).
  - intros [= <-]. left. reflexivity.
  - apply frogfs_get_path_loop_fits. reflexivity.
Qed.

Lemma frogfs_get_path_fits_witness :
  "etc/c" = "" \/ Z.of_nat (String.length "etc/c") < PATH_MAX host_build - 1.
Proof.
  apply (frogfs_get_path_fits host_build demo_fs 160 "etc/c").
  vm_compute. reflexivity.
Defined.

(** ** What the resolver answers *)

Lemma strcmp_zero (a : string) :
  forall b : string, strcmp a b = 0 <-> c_str a = c_str b.
Proof.
  induction a as [|x a IH]; intros [|y b]; simpl.
  - tauto.
  - destruct (is_nul y); split; intros H; try reflexivity; try lia; discriminate.
  - destruct (is_nul x); split; intros H; try reflexivity; try lia; discriminate.
  - destruct (byte_val x =? byte_val y) eqn:E.
    + apply Z.eqb_eq in E.
      assert (x = y) as <-.
      { unfold byte_val in E. apply N2Z.inj in E.
        rewrite <- (ascii_N_embedding x), <- (ascii_N_embedding y), E.
        reflexivity. }
      destruct (is_nul x); [tauto|].
      rewrite IH. split; [intros ->; reflexivity|intros [= H]; exact H].
    + apply Z.eqb_neq in E.
      assert (Hnz : forall z, is_nul z = true -> byte_val z = 0).
      { intros z Hz. apply Z.eqb_eq. exact Hz. }
      destruct (byte_val x <? byte_val y); split; try lia;
        destruct (is_nul x) eqn:Ex, (is_nul y) eqn:Ey; intros H;
        try discriminate; try (inversion H; subst; contradiction).
      all: exfalso; apply E; rewrite (Hnz x Ex), (Hnz y Ey); reflexivity.
Qed.

Lemma search_loop_hit (fs : frogfs_fs_t) (hash : Z) :
  forall (fuel : nat) (first last middle e first' last' middle' e' : Z),
    search_loop fuel fs hash first last middle e
      = Done (first', last', middle', e') ->
    first' <= last' ->
    middle' = e' /\
    exists he, hash_at fs e' = Done he /\ he_hash he = hash.
Proof.
  induction fuel as [|fuel IH];
    intros first last middle e first' last' middle' e'; simpl.
  - destruct (first <=? last) eqn:E; [discriminate|].
    apply Z.leb_gt in E. intros [= <- <- <- <-]. lia.
  - destruct (first <=? last) eqn:E.
    + destruct (hash_at fs (first + Z.quot (last - first) 2)) as [he| |] eqn:Hat;
        cbn [run_bind]; try discriminate.
      destruct (he_hash he =? hash) eqn:Heq.
      * apply Z.eqb_eq in Heq. intros [= <- <- <- <-] _.
        split; [reflexivity|]. exists he. split; assumption.
      * destruct (he_hash he <? hash); apply IH.
    + apply Z.leb_gt in E. intros [= <- <- <- <-]. lia.
Qed.

Lemma rewind_loop_hit (fs : frogfs_fs_t) (hash : Z) :
  forall (fuel : nat) (middle e middle' e' : Z),
    (exists he, hash_at fs e = Done he /\ he_hash he = hash) ->
    (exists he, hash_at fs middle = Done he /\ he_hash he = hash) ->
    rewind_loop fuel fs hash middle e = Done (middle', e') ->
    exists he, hash_at fs e' = Done he /\ he_hash he = hash.
Proof.
  induction fuel as [|fuel IH]; intros middle e middle' e' He Hm; simpl.
  - destruct (0 <? middle); [discriminate|].
    intros [= <- <-]. exact He.
  - destruct (0 <? middle); [|intros [= <- <-]; exact He].
    destruct (hash_at fs (middle - 1)) as [prev| |] eqn:Hat;
      cbn [run_bind]; try discriminate.
    destruct (he_hash prev =? hash) eqn:Heq; cbn [negb].
    + apply Z.eqb_eq in Heq. apply IH; [exact Hm|].
      exists prev. split; assumption.
    + intros [= <- <-]. exact Hm.
Qed.

Lemma walk_loop_sound (b : build_config) (fs : frogfs_fs_t)
    (path : string) (hash last e : Z) :
  forall (fuel : nat) (middle : Z) (entry : Z),
    walk_loop b fuel fs path hash middle last e = Done (Some entry) ->
    exists he found,
      hash_at fs e = Done he /\ entry = he_offs he /\
      frogfs_get_path b fs entry = Done found /\
      strcmp path found = 0.
Proof.
  induction fuel as [|fuel IH]; intros middle entry; simpl; [discriminate|].
  destruct (hash_at fs e) as [he| |] eqn:Hat; cbn [run_bind]; try discriminate.
  destruct (frogfs_get_path b fs (he_offs he)) as [found| |] eqn:Hpath;
    cbn [run_bind]; try discriminate.
  destruct (strcmp path found =? 0) eqn:Hcmp.
  - apply Z.eqb_eq in Hcmp. intros [= <-].
    exists he, found. repeat split; assumption.
  - destruct ((middle + 1 <? last) && (he_hash he =? hash)); [|discriminate].
    intros Hrec. destruct (IH _ _ Hrec) as (he' & found' & Hhe' & -> & Hp & Hc).
    exists he', found'. repeat split; assumption.
Qed.

(** X7: the resolver never answers with a wrong entry.  An entry it
    returns is the target of a record of the index whose hash is the
    hash of the path asked for (leading slashes dropped), and its
    reconstructed path is that path, byte for byte up to the NUL. *)
Theorem frogfs_get_entry_sound (b : build_config) (fs : frogfs_fs_t)
    (path : string) (entry : Z) :
  frogfs_get_entry b fs path = Done (Some entry) ->
  exists (i : Z) (he : frogfs_hash_t) (found : string),
    hash_at fs i = Done he /\
    he_offs he = entry /\
    he_hash he = djb2_hash (abi b) (skip_slashes path) /\
    frogfs_get_path b fs entry = Done found /\
    c_str found = c_str (skip_slashes path).
Proof.
  unfold frogfs_get_entry.
  destruct (search_loop _ fs _ 0 (fs_num_entries fs - 1) 0 0)
    as [[[[first last] middle] e]| |] eqn:Hs; cbn [run_bind];
    try discriminate.
  destruct (last <? first) eqn:E; [discriminate|].
  apply Z.ltb_ge in E.
  destruct (search_loop_hit _ _ _ _ _ _ _ _ _ _ _ Hs E) as [-> Hhit].
  destruct (rewind_loop (Z.to_nat e) fs _ e e)
    as [[middle' e']| |] eqn:Hr; cbn [run_bind]; try discriminate.
  pose proof (rewind_loop_hit _ _ _ _ _ _ _ Hhit Hhit Hr) as (he & Hhe & Hhash).
  intros Hwalk.
  destruct (walk_loop_sound _ _ _ _ _ _ _ _ _ Hwalk)
    as (he' & found & Hhe' & -> & Hpath & Hcmp).
  assert (he' = he) as -> by congruence.
  exists e', he, found. repeat split; try assumption.
  symmetry. apply strcmp_zero. exact Hcmp.
Qed.

Lemma frogfs_get_entry_sound_witness :
  exists (i : Z) (he : frogfs_hash_t) (found : string),
    hash_at demo_fs i = Done he /\
    he_offs he = 140 /\
    he_hash he = djb2_hash (abi host_build) (skip_slashes "//etc/b") /\
    frogfs_get_path host_build demo_fs 140 = Done found /\
    c_str found = c_str (skip_slashes "//etc/b").
Proof.
  apply (frogfs_get_entry_sound host_build demo_fs "//etc/b" 140).
  vm_compute. reflexivity.
Defined.

Lemma search_loop_absent (fs : frogfs_fs_t) (hash : Z) :
  fs_num_entries fs <= Z.of_nat (List.length (img_hash (fs_head fs))) ->
  hash_absent fs hash ->
  forall (fuel : nat) (first last middle e : Z),
    0 <= first ->
    last < fs_num_entries fs ->
    last - first + 1 <= Z.of_nat fuel ->
    exists first' last' middle' e',
      search_loop fuel fs hash first last middle e
        = Done (first', last', middle', e') /\
      last' < first'.
Proof.
  intros Hlen Habs.
  induction fuel as [|fuel IH]; intros first last middle e H0 Hlast Hfuel;
    simpl.
  - destruct (first <=? last) eqn:E; [apply Z.leb_le in E; lia|].
    apply Z.leb_gt in E. eauto 6.
  - destruct (first <=? last) eqn:E; [|apply Z.leb_gt in E; eauto 6].
    apply Z.leb_le in E. pose proof (middle_between first last E) as Hm.
    set (m := first + Z.quot (last - first) 2) in *.
    destruct (hash_at_in_range fs m) as (he & Hhe & ->); [lia|].
    cbn [run_bind].
    destruct (he_hash he =? hash) eqn:Heq.
    + apply Z.eqb_eq in Heq. exfalso.
      apply (Habs (Z.to_nat m) he); [lia|exact Hhe|exact Heq].
    + destruct (he_hash he <? hash); apply IH; lia.
Qed.

(** X8: with an entry count that is not negative (so that
    [num_entries - 1] stays within [int]), a path whose hash no record of
    the index carries is answered with [NULL], whatever the order of the
    index; in particular every path is, on an image without entries. *)
Theorem frogfs_get_entry_absent_hash (b : build_config) (fs : frogfs_fs_t)
    (path : string) :
  0 <= fs_num_entries fs < 2 ^ 31 ->
  fs_num_entries fs <= Z.of_nat (List.length (img_hash (fs_head fs))) ->
  hash_absent fs (djb2_hash (abi b) (skip_slashes path)) ->
  frogfs_get_entry b fs path = Done None.
Proof.
  intros Hint Hlen Habs. unfold frogfs_get_entry.
  destruct (search_loop_absent fs _ Hlen Habs
              (Z.to_nat (fs_num_entries fs - 1 - 0 + 1))
              0 (fs_num_entries fs - 1) 0 0)
    as (first' & last' & middle' & e' & -> & Hlt); try lia.
  cbn [run_bind].
  destruct (last' <? first') eqn:E; [reflexivity|].
  apply Z.ltb_ge in E. lia.
Qed.

Lemma frogfs_get_entry_absent_hash_witness :
  frogfs_get_entry host_build tie_fs "/nothing" = Done None.
Proof.
  apply (frogfs_get_entry_absent_hash host_build tie_fs "/nothing").
  - split; [apply Z.leb_le|apply Z.ltb_lt]; reflexivity.
  - apply Z.leb_le. reflexivity.
  - intros i he Hi Hhe.
    do 3 (destruct i as [|i]; [inversion Hhe; subst; vm_compute; discriminate|]).
    discriminate.
Defined.

Lemma frogfs_get_entry_path_match (b : build_config) (fs : frogfs_fs_t)
    (path : string) (entry : Z) :
  frogfs_get_entry b fs path = Done (Some entry) ->
  exists found,
    frogfs_get_path b fs entry = Done found /\
    strcmp (skip_slashes path) found = 0.
Proof.
  unfold frogfs_get_entry.
  destruct (search_loop _ fs _ 0 (fs_num_entries fs - 1) 0 0)
    as [[[[first last] middle] e]| |]; cbn [run_bind]; try discriminate.
  destruct (last <? first); [discriminate|].
  destruct (rewind_loop (Z.to_nat middle) fs _ middle e)
    as [[middle' e']| |]; cbn [run_bind]; try discriminate.
  intros Hwalk.
  destruct (walk_loop_sound _ _ _ _ _ _ _ _ _ Hwalk)
    as (he & found & _ & _ & Hpath & Hcmp).
  exists found. split; assumption.
Qed.

Lemma c_str_skip_slashes_length (s : string) :
  (String.length (c_str (skip_slashes s)) <= String.length (c_str s))%nat.
Proof.
  induction s as [|c s IH]; simpl; [lia|].
  destruct (Ascii.eqb c "/"%char) eqn:E.
  - apply Ascii.eqb_eq in E. subst c. simpl. lia.
  - simpl. destruct (is_nul c); simpl; lia.
Qed.

Lemma c_str_leading_slash (p : string) :
  skip_slashes p <> p -> c_str p <> c_str (skip_slashes p).
Proof.
  destruct p as [|c p]; simpl; [intros H; contradiction H; reflexivity|].
  destruct (Ascii.eqb c "/"%char) eqn:E;
    [|intros H; contradiction H; reflexivity].
  apply Ascii.eqb_eq in E. subst c. intros _ Heq.
  pose proof (c_str_skip_slashes_length p) as Hlen.
  rewrite <- Heq in Hlen. simpl in Hlen. lia.
Qed.

(** X9: let [p] be the path [frogfs_get_path] reconstructs for an entry.
    If [p] does not begin with a slash, resolving [p], with or without
    leading slashes, gives the entry back whenever the ascending index
    has a single record of [p]'s hash and that record points at the
    entry.  If [p] begins with a slash, as a reconstruction cut short by
    [PATH_MAX] does, resolving [p] never gives the entry back. *)
Theorem frogfs_get_entry_get_path (b : build_config) (fs : frogfs_fs_t)
    (i0 : nat) (offs : Z) (p : string) (n : nat) :
  frogfs_get_path b fs offs = Done p ->
  (skip_slashes p = p ->
   index_complete fs ->
   index_sorted fs ->
   only_record fs i0 (djb2_hash (abi b) p) offs ->
   frogfs_get_entry b fs (slashes n ++ p) = Done (Some offs)) /\
  (skip_slashes p <> p ->
   frogfs_get_entry b fs (slashes n ++ p) <> Done (Some offs)).
Proof.
  intros Hpath. split.
  - intros Hskip Hcomplete Hsorted Honly.
    assert (Hstrip : skip_slashes (slashes n ++ p) = p)
      by (rewrite skip_slashes_slashes; exact Hskip).
    apply (frogfs_get_entry_unique b fs (djb2_hash (abi b) p) offs i0
             Hcomplete Hsorted Honly (slashes n ++ p) p).
    + rewrite Hstrip. reflexivity.
    + exact Hpath.
    + rewrite Hstrip. apply strcmp_zero. reflexivity.
  - intros Hskip Hget.
    destruct (frogfs_get_entry_path_match b fs _ offs Hget)
      as (found & Hfound & Hcmp).
    assert (found = p) as -> by congruence.
    rewrite skip_slashes_slashes in Hcmp. apply strcmp_zero in Hcmp.
    apply (c_str_leading_slash p Hskip). symmetry. exact Hcmp.
Qed.

Lemma demo_only_etc_c :
  only_record demo_fs 3 (djb2_hash (abi host_build) "etc/c") 160.
Proof.
  split; [reflexivity|].
  intros j y Hj Hy.
  do 7 (destruct j as [|j];
        [inversion Hj; subst; try reflexivity; discriminate|]).
  discriminate.
Defined.

Lemma frogfs_get_entry_get_path_witness :
  frogfs_get_entry host_build demo_fs "//etc/c" = Done (Some 160) /\
  frogfs_get_entry tiny_build deep_fs "/defg" <> Done (Some 72).
Proof.
  split.
  - assert (Hpath : frogfs_get_path host_build demo_fs 160 = Done "etc/c")
      by (vm_compute; reflexivity).
    destruct (frogfs_get_entry_get_path host_build demo_fs 3 160 "etc/c" 2 Hpath)
      as [Hback _].
    apply Hback.
    + reflexivity.
    + reflexivity.
    + apply ascending_sorted. reflexivity.
    + exact demo_only_etc_c.
  - assert (Hpath : frogfs_get_path tiny_build deep_fs 72 = Done "/defg")
      by (vm_compute; reflexivity).
    destruct (frogfs_get_entry_get_path tiny_build deep_fs 0 72 "/defg" 0 Hpath)
      as [_ Hnever].
    apply Hnever. discriminate.
Defined.

(** ** Reads stay inside a closed image *)

Section Closed.
Variable b : build_config.
Variable fs : frogfs_fs_t.
Hypothesis Hclosed : image_closed fs.

Local Abbreviation table_length :=
  (Z.of_nat (List.length (img_hash (fs_head fs)))).

Lemma frogfs_get_path_loop_closed :
  forall (fuel : nat) (offs : Z) (path : string) (len : Z),
    is_Some (img_entries (fs_head fs) !! offs) ->
    frogfs_get_path_loop b fuel fs offs path len <> Fault.
Proof.
  destruct Hclosed as (_ & _ & Hentries).
  induction fuel as [|fuel IH]; intros offs path len [e He]; simpl;
    [discriminate|].
  unfold load_entry. rewrite He. cbn [load run_bind].
  destruct (Hentries offs e He) as [Hok Hparent].
  destruct (e_parent e =? 0) eqn:E0; cbn [negb andb]; [discriminate|].
  destruct (len + e_seg_sz e + 1 <? PATH_MAX b - 1); [|discriminate].
  rewrite (name_segment_ok e Hok). cbn [run_bind].
  destruct (e_parent e =? fs_root fs) eqn:E1; [discriminate|].
  apply Z.eqb_neq in E0. apply Z.eqb_neq in E1.
  apply IH. apply Hparent; assumption.
Qed.

Lemma frogfs_get_path_closed (offs : Z) :
  is_Some (img_entries (fs_head fs) !! offs) ->
  exists found, frogfs_get_path b fs offs = Done found.
Proof.
  intros Hsome.
  destruct (frogfs_get_path b fs offs) as [found| |] eqn:Hpath.
  - exists found. reflexivity.
  - exfalso. revert Hpath. unfold frogfs_get_path, load_entry.
    destruct Hsome as [e He]. rewrite He. cbn [load run_bind].
    destruct (e_parent e =? 0); [discriminate|].
    apply frogfs_get_path_loop_closed. exists e. exact He.
  - exfalso. exact (frogfs_get_path_bounded _ _ _ Hpath).
Qed.

Lemma search_loop_closed (hash : Z) :
  forall (fuel : nat) (first last middle e : Z),
    0 <= first ->
    last < table_length ->
    search_loop fuel fs hash first last middle e <> Fault /\
    forall first' last' middle' e',
      search_loop fuel fs hash first last middle e
        = Done (first', last', middle', e') ->
      first' <= last' ->
      middle' = e' /\ 0 <= e' < table_length.
Proof.
  induction fuel as [|fuel IH]; intros first last middle e H0 Hlast; simpl.
  - destruct (first <=? last) eqn:E; split; try discriminate.
    apply Z.leb_gt in E. intros ? ? ? ? [= <- <- <- <-]. lia.
  - destruct (first <=? last) eqn:E.
    + apply Z.leb_le in E. pose proof (middle_between first last E) as Hm.
      set (m := first + Z.quot (last - first) 2) in *.
      destruct (hash_at_in_range fs m) as (he & Hhe & ->); [lia|].
      cbn [run_bind].
      destruct (he_hash he =? hash).
      * split; [discriminate|].
        intros ? ? ? ? [= <- <- <- <-] _. split; [reflexivity|lia].
      * destruct (he_hash he <? hash); apply IH; lia.
    + apply Z.leb_gt in E. split; [discriminate|].
      intros ? ? ? ? [= <- <- <- <-]. lia.
Qed.

Lemma rewind_loop_closed (hash : Z) :
  forall (fuel : nat) (middle e : Z),
    0 <= e < table_length ->
    middle < table_length ->
    rewind_loop fuel fs hash middle e <> Fault /\
    forall middle' e',
      rewind_loop fuel fs hash middle e = Done (middle', e') ->
      0 <= e' < table_length.
Proof.
  induction fuel as [|fuel IH]; intros middle e He Hm; simpl.
  - destruct (0 <? middle); split; try discriminate.
    intros ? ? [= <- <-]. exact He.
  - destruct (0 <? middle) eqn:E.
    + apply Z.ltb_lt in E.
      destruct (hash_at_in_range fs (middle - 1)) as (prev & _ & ->); [lia|].
      cbn [run_bind].
      destruct (he_hash prev =? hash); cbn [negb].
      * apply IH; lia.
      * split; [discriminate|]. intros ? ? [= <- <-]. lia.
    + split; [discriminate|]. intros ? ? [= <- <-]. exact He.
Qed.

Lemma walk_loop_closed (path : string) (hash last e : Z) :
  0 <= e < table_length ->
  forall (fuel : nat) (middle : Z),
    walk_loop b fuel fs path hash middle last e <> Fault.
Proof.
  intros He. destruct Hclosed as (_ & Hindex & _).
  destruct (hash_at_in_range fs e He) as (he & Hhe & Hat).
  destruct (frogfs_get_path_closed (he_offs he)) as [found Hpath];
    [exact (Hindex _ _ Hhe)|].
  induction fuel as [|fuel IH]; intros middle; simpl; [discriminate|].
  rewrite Hat. cbn [run_bind]. rewrite Hpath. cbn [run_bind].
  destruct (strcmp path found =? 0); [discriminate|].
  destruct ((middle + 1 <? last) && (he_hash he =? hash)); [|discriminate].
  apply IH.
Qed.

Lemma frogfs_get_entry_no_fault (path : string) :
  frogfs_get_entry b fs path <> Fault.
Proof.
  pose proof Hclosed as (Hlen & _ & _).
  unfold frogfs_get_entry.
  destruct (search_loop_closed (djb2_hash (abi b) (skip_slashes path))
              (Z.to_nat (fs_num_entries fs - 1 - 0 + 1))
              0 (fs_num_entries fs - 1) 0 0) as [Hnf Hrange]; try lia.
  destruct (search_loop _ fs _ 0 (fs_num_entries fs - 1) 0 0)
    as [[[[first last] middle] e]| |] eqn:Hs; cbn [run_bind];
    try discriminate; [|contradiction].
  destruct (last <? first) eqn:E; [discriminate|].
  apply Z.ltb_ge in E.
  destruct (Hrange _ _ _ _ eq_refl E) as [-> He].
  destruct (rewind_loop_closed (djb2_hash (abi b) (skip_slashes path))
              (Z.to_nat e) e e He ltac:(lia)) as [Hrnf Hre].
  destruct (rewind_loop (Z.to_nat e) fs _ e e)
    as [[middle' e']| |] eqn:Hr; cbn [run_bind];
    try discriminate; [|contradiction].
  apply walk_loop_closed. exact (Hre _ _ eq_refl).
Qed.
End Closed.

Lemma walk_loop_alloc_ok (b : build_config) (calloc_ok : nat -> bool)
    (fs : frogfs_fs_t) (path : string) (hash last e : Z) :
  (forall k, calloc_ok k = true) ->
  forall (fuel k : nat) (middle : Z),
    walk_loop_alloc b calloc_ok fuel k fs path hash middle last e
    = walk_loop b fuel fs path hash middle last e.
Proof.
  intros Hok. induction fuel as [|fuel IH]; intros k middle; simpl;
    [reflexivity|].
  destruct (hash_at fs e) as [he| |]; cbn [run_bind]; try reflexivity.
  unfold frogfs_get_path_alloc. rewrite Hok.
  destruct (frogfs_get_path b fs (he_offs he)) as [found| |];
    cbn [run_bind]; try reflexivity.
  destruct (strcmp path found =? 0); [reflexivity|].
  destruct ((middle + 1 <? last) && (he_hash he =? hash)); [|reflexivity].
  apply IH.
Qed.

Lemma frogfs_get_entry_alloc_ok (b : build_config) (calloc_ok : nat -> bool)
    (fs : frogfs_fs_t) (path : string) :
  (forall k, calloc_ok k = true) ->
  fs_num_entries fs <> INT_MIN ->
  frogfs_get_entry_alloc b calloc_ok fs path = frogfs_get_entry b fs path.
Proof.
  intros Hok Hmin. unfold frogfs_get_entry_alloc, frogfs_get_entry.
  destruct (fs_num_entries fs =? INT_MIN) eqn:E;
    [apply Z.eqb_eq in E; contradiction|].
  destruct (search_loop _ fs _ 0 (fs_num_entries fs - 1) 0 0)
    as [[[[first last] middle] e]| |]; cbn [run_bind]; try reflexivity.
  destruct (last <? first); [reflexivity|].
  destruct (rewind_loop (Z.to_nat middle) fs _ middle e)
    as [[middle' e']| |]; cbn [run_bind]; try reflexivity.
  apply walk_loop_alloc_ok. exact Hok.
Qed.

(** X10: take the lookup with its [calloc] failures and the overflow of
    [num_entries - 1] as faults.  On an image in which every offset the
    resolver can follow leads to a record (the index holds [num_entries]
    records that point at entries, names hold their segment, parents are
    entries), with an entry count that is not negative, and as long as
    the allocations of [frogfs_get_path] succeed, a lookup returns, an
    entry or [NULL], for every path: it reads nothing outside the image
    and its loops end. *)
Theorem frogfs_get_entry_returns (b : build_config)
    (calloc_ok : nat -> bool) (fs : frogfs_fs_t) (path : string) :
  image_closed fs ->
  0 <= fs_num_entries fs < 2 ^ 31 ->
  (forall k, calloc_ok k = true) ->
  exists answer : option Z,
    frogfs_get_entry_alloc b calloc_ok fs path = Done answer /\
    frogfs_get_entry b fs path = Done answer.
Proof.
  intros Hclosed Hint Hok.
  rewrite (frogfs_get_entry_alloc_ok b calloc_ok fs path Hok)
    by (unfold INT_MIN; lia).
  destruct (frogfs_get_entry b fs path) as [answer| |] eqn:Hget.
  - exists answer. split; reflexivity.
  - exfalso. exact (frogfs_get_entry_no_fault b fs Hclosed path Hget).
  - exfalso. exact (frogfs_get_entry_bounded b fs path Hget).
Qed.

Lemma tie_image_closed : image_closed tie_fs.
Proof.
  split; [apply Z.leb_le; reflexivity|]. split.
  - intros i he Hi.
    do 3 (destruct i as [|i]; [inversion Hi; subst; eexists; reflexivity|]).
    discriminate.
  - intros offs e He.
    assert (Hin : (offs, e) ∈ [ (40, mk_dir 0 "" [60; 80]);
                                (60, mk_file 40 "bC" 0 100 2 0);
                                (80, mk_file 40 "cb" 0 104 2 0) ]).
    { apply (elem_of_list_to_map_2 (M := gmap Z)). exact He. }
    repeat (apply elem_of_cons in Hin as [[= -> ->]|Hin]);
      [| | |apply elem_of_nil in Hin; contradiction].
    + split; [split; simpl; lia|]. intros H; contradiction H; reflexivity.
    + split; [split; simpl; lia|]. intros _ H; contradiction H; reflexivity.
    + split; [split; simpl; lia|]. intros _ H; contradiction H; reflexivity.
Defined.

Lemma frogfs_get_entry_returns_witness :
  exists answer : option Z,
    frogfs_get_entry_alloc host_build (fun _ => true) tie_fs "/cb" = Done answer /\
    frogfs_get_entry host_build tie_fs "/cb" = Done answer.
Proof.
  apply (frogfs_get_entry_returns host_build (fun _ => true) tie_fs "/cb").
  - exact tie_image_closed.
  - split; [apply Z.leb_le|apply Z.ltb_lt]; reflexivity.
  - intros k. reflexivity.
Defined.

(** ** Handles that [frogfs_open] returns *)

Lemma frogfs_open_inr (b : build_config)
    (decomp_open :
       frogfs_decomp_funcs_t -> option (frogfs_fh_t -> Z -> option frogfs_fh_t))
    (fs : frogfs_fs_t) (entry : Z) (e : frogfs_entry_t) (flags : Z)
    (fh : frogfs_fh_t) :
  hooks_keep_handle decomp_open ->
  img_entries (fs_head fs) !! entry = Some e ->
  frogfs_open b decomp_open fs entry flags = Done (inr fh) ->
  FROGFS_IS_DIR e = false /\
  exists real_sz funcs,
    select_driver b e flags = Some (real_sz, funcs) /\
    fh = filled_handle fs entry e flags real_sz funcs.
Proof.
  intros Hkeep Hload. unfold frogfs_open, load_entry.
  rewrite Hload. cbn [load run_bind].
  destruct (FROGFS_IS_DIR e); [discriminate|].
  destruct (select_driver b e flags) as [[real_sz funcs]|]; [|discriminate].
  intros [= Hopen]. split; [reflexivity|].
  exists real_sz, funcs. split; [reflexivity|].
  unfold driver_open in Hopen.
  destruct (decomp_open (fh_decomp_funcs
              (filled_handle fs entry e flags real_sz funcs))) as [open|] eqn:Hd.
  - destruct (open (filled_handle fs entry e flags real_sz funcs) flags)
      as [fh'|] eqn:Ho; [|discriminate].
    injection Hopen as <-. exact (Hkeep _ _ _ _ _ Hd Ho).
  - injection Hopen as <-. reflexivity.
Qed.

(** X11: a handle that [frogfs_open] returns stands on a file entry: its
    data window is the payload of the entry, whatever the driver, with
    the read position at its start; [frogfs_access] gives that window and
    [frogfs_is_raw] tells whether the RAW bit was in the flags. *)
Theorem frogfs_open_handle (b : build_config)
    (decomp_open :
       frogfs_decomp_funcs_t -> option (frogfs_fh_t -> Z -> option frogfs_fh_t))
    (fs : frogfs_fs_t) (entry : Z) (e : frogfs_entry_t) (flags : Z)
    (fh : frogfs_fh_t) :
  hooks_keep_handle decomp_open ->
  img_entries (fs_head fs) !! entry = Some e ->
  frogfs_open b decomp_open fs entry flags = Done (inr fh) ->
  frogfs_is_dir e = false /\
  fh_fs fh = fs /\ fh_file fh = entry /\
  frogfs_access fh = (e_data_offs e, e_data_sz e) /\
  fh_data_ptr fh = fh_data_start fh /\
  frogfs_is_raw b fh = (if raw_flag b flags then 1 else 0) /\
  (frogfs_is_raw b fh = 1 -> fh_decomp_funcs fh = frogfs_decomp_raw).
Proof.
  intros Hkeep Hload Hopen.
  destruct (frogfs_open_inr b decomp_open fs entry e flags fh Hkeep Hload Hopen)
    as (Hdir & real_sz & funcs & Hsel & ->).
  repeat split; try assumption.
  unfold frogfs_is_raw. cbn [filled_handle fh_flags fh_decomp_funcs].
  unfold select_driver in Hsel.
  destruct (raw_flag b flags); [|discriminate].
  rewrite orb_true_r in Hsel. injection Hsel as _ <-. reflexivity.
Qed.

Lemma no_open_hooks_keep : hooks_keep_handle no_open_hooks.
Proof. intros funcs open fh flags fh' H. discriminate H. Defined.

Lemma frogfs_open_handle_witness :
  let fh := filled_handle demo_fs 180 (mk_file 72 "big.txt" 1 248 312 1024)
              1 312 frogfs_decomp_raw in
  frogfs_access fh = (248, 312) /\ frogfs_is_raw host_build fh = 1.
Proof.
  intros fh.
  destruct (frogfs_open_handle host_build no_open_hooks demo_fs 180
              (mk_file 72 "big.txt" 1 248 312 1024) 1 fh
              no_open_hooks_keep eq_refl eq_refl)
    as (_ & _ & _ & Hacc & _ & Hraw & _).
  split; [exact Hacc|exact Hraw].
Defined.

(** X12: the sizes of a handle agree with [frogfs_stat] on its entry:
    the stored size is [compressed_sz]; the logical size is [size] for a
    handle opened without the RAW bit and [compressed_sz] for one opened
    with it. *)
Theorem frogfs_open_stat_sizes (b : build_config)
    (decomp_open :
       frogfs_decomp_funcs_t -> option (frogfs_fh_t -> Z -> option frogfs_fh_t))
    (fs : frogfs_fs_t) (entry : Z) (e : frogfs_entry_t) (flags : Z)
    (fh : frogfs_fh_t) :
  hooks_keep_handle decomp_open ->
  img_entries (fs_head fs) !! entry = Some e ->
  frogfs_open b decomp_open fs entry flags = Done (inr fh) ->
  exists st,
    frogfs_stat fs entry = Done st /\
    st_type st = FROGFS_ENTRY_TYPE_FILE /\
    fh_data_sz fh = st_compressed_sz st /\
    fh_real_sz fh =
      (if raw_flag b flags then st_compressed_sz st else st_size st).
Proof.
  intros Hkeep Hload Hopen.
  destruct (frogfs_open_inr b decomp_open fs entry e flags fh Hkeep Hload Hopen)
    as (Hdir & real_sz & funcs & Hsel & ->).
  unfold frogfs_stat, load_entry. rewrite Hload. cbn [load run_bind].
  rewrite Hdir. unfold select_driver in Hsel.
  destruct (e_compression e =? 0) eqn:E0; cbn [negb orb] in *.
  - injection Hsel as <- <-. eexists. split; [reflexivity|].
    cbn. destruct (raw_flag b flags); repeat split.
  - destruct (raw_flag b flags).
    + injection Hsel as <- <-. eexists. split; [reflexivity|]. repeat split.
    + destruct (CONFIG_FROGFS_USE_DEFLATE b
                && (e_compression e =? FROGFS_COMP_ALGO_DEFLATE)).
      * injection Hsel as <- <-. eexists. split; [reflexivity|]. repeat split.
      * destruct (CONFIG_FROGFS_USE_HEATSHRINK b
                  && (e_compression e =? FROGFS_COMP_ALGO_HEATSHRINK));
          [|discriminate].
        injection Hsel as <- <-. eexists. split; [reflexivity|]. repeat split.
Qed.

Lemma frogfs_open_stat_sizes_witness :
  exists st,
    frogfs_stat demo_fs 180 = Done st /\
    st_type st = FROGFS_ENTRY_TYPE_FILE /\
    312 = st_compressed_sz st /\
    1024 = st_size st.
Proof.
  exact (frogfs_open_stat_sizes host_build no_open_hooks demo_fs 180
           (mk_file 72 "big.txt" 1 248 312 1024) 0
           (filled_handle demo_fs 180 (mk_file 72 "big.txt" 1 248 312 1024)
              0 1024 frogfs_decomp_deflate)
           no_open_hooks_keep eq_refl eq_refl).
Defined.

(** ** Listing and seeking in a directory *)

Lemma readdir_n_from (dh : frogfs_dh_t) (d : Z) (dir : frogfs_entry_t) :
  handle_on dh d dir ->
  dir_whole dir ->
  forall (k i : nat),
    (i + k = List.length (e_children dir))%nat ->
    readdir_n (S k) (set_index dh (Z.of_nat i))
    = Done ((map Some (drop i (e_children dir)) ++ [None])%list,
            set_index dh (e_child_count dir)).
Proof.
  intros Hon [Hcount H16].
  induction k as [|k IH]; intros i Hik.
  - cbn [readdir_n].
    rewrite (frogfs_readdir_at dh d dir Hon (Z.of_nat i)) by lia.
    destruct (Z.of_nat i <? e_child_count dir) eqn:E;
      [apply Z.ltb_lt in E; lia|].
    cbn [run_bind snd fst].
    rewrite drop_ge by lia.
    replace (e_child_count dir) with (Z.of_nat i) by lia. reflexivity.
  - change (readdir_n (S (S k)) (set_index dh (Z.of_nat i)))
      with (do r <- frogfs_readdir (set_index dh (Z.of_nat i));
            do rest <- readdir_n (S k) (snd r);
            Done (fst r :: fst rest, snd rest)).
    rewrite (frogfs_readdir_at dh d dir Hon (Z.of_nat i)) by lia.
    destruct (Z.of_nat i <? e_child_count dir) eqn:E;
      [|apply Z.ltb_ge in E; lia].
    rewrite Nat2Z.id.
    destruct (lookup_lt_is_Some_2 (e_children dir) i ltac:(lia)) as [child Hc].
    rewrite Hc. cbn [run_bind snd fst].
    unfold to_uint16. rewrite Z.mod_small by lia.
    replace (Z.of_nat i + 1) with (Z.of_nat (S i)) by lia.
    change (set_index (set_index dh (Z.of_nat i)) (Z.of_nat (S i)))
      with (set_index dh (Z.of_nat (S i))).
    rewrite IH by lia. cbn [run_bind snd fst].
    rewrite (drop_S _ _ _ Hc). reflexivity.
Qed.

(** X13: from the handle [frogfs_opendir] gives, successive calls of
    [frogfs_readdir] hand out the children of the directory in stored
    order, each once, then answer [NULL] with the cursor at
    [child_count]. *)
Theorem frogfs_readdir_lists_children (fs : frogfs_fs_t) (entry : option Z)
    (dh : frogfs_dh_t) (d : Z) (dir : frogfs_entry_t) :
  frogfs_opendir fs entry = Done (Some dh) ->
  handle_on dh d dir ->
  dir_whole dir ->
  readdir_n (S (List.length (e_children dir))) dh
  = Done ((map Some (e_children dir) ++ [None])%list,
          set_index dh (e_child_count dir)).
Proof.
  intros Hopen Hon Hwhole.
  destruct (frogfs_opendir_cursor fs entry dh Hopen) as (Hidx & _ & _).
  rewrite <- (set_index_same dh) at 1. rewrite Hidx.
  exact (readdir_n_from dh d dir Hon Hwhole
           (List.length (e_children dir)) 0%nat eq_refl).
Qed.

Lemma frogfs_readdir_lists_children_witness :
  readdir_n 4 etc_dh
  = Done ([Some 120; Some 140; Some 160; None], set_index etc_dh 3).
Proof.
  apply (frogfs_readdir_lists_children demo_fs (Some 96) etc_dh 96
           (mk_dir 72 "etc" [120; 140; 160])).
  - reflexivity.
  - split; reflexivity.
  - split; [reflexivity|simpl; lia].
Defined.

(** X14: a seek to a position of the directory leaves the cursor there,
    wherever it was before: [frogfs_telldir] gives the position back and
    the next [frogfs_readdir] hands out the child stored at it. *)
Theorem frogfs_seekdir_telldir (dh : frogfs_dh_t) (d : Z)
    (dir : frogfs_entry_t) (loc : Z) (fuel : nat) :
  handle_on dh d dir ->
  children_present dir ->
  0 <= loc <= e_child_count dir ->
  loc < 2 ^ 16 ->
  loc <= Z.of_nat fuel ->
  exists dh',
    frogfs_seekdir fuel dh loc = Done dh' /\
    frogfs_telldir dh' = loc /\
    (loc < e_child_count dir ->
     exists child,
       e_children dir !! Z.to_nat loc = Some child /\
       frogfs_readdir dh'
       = Done (Some child, set_index dh (to_uint16 (loc + 1)))).
Proof.
  intros Hon Hch Hloc H16 Hfuel.
  exists (set_index dh loc). split; [|split].
  - unfold frogfs_seekdir, frogfs_rewinddir.
    apply (seekdir_loop_reaches dh d dir Hon Hch loc); lia.
  - reflexivity.
  - intros Hlt.
    rewrite (frogfs_readdir_at dh d dir Hon loc) by lia.
    destruct (loc <? e_child_count dir) eqn:E; [|apply Z.ltb_ge in E; lia].
    destruct (lookup_lt_is_Some_2 (e_children dir) (Z.to_nat loc)) as [child Hc].
    { red in Hch. lia. }
    exists child. split; [exact Hc|]. rewrite Hc. reflexivity.
Qed.

Lemma frogfs_seekdir_telldir_witness :
  exists dh',
    frogfs_seekdir 2 (set_index etc_dh 3) 2 = Done dh' /\
    frogfs_telldir dh' = 2 /\
    (2 < 3 ->
     exists child,
       [120; 140; 160] !! Z.to_nat 2 = Some child /\
       frogfs_readdir dh'
       = Done (Some child, set_index (set_index etc_dh 3) (to_uint16 (2 + 1)))).
Proof.
  apply (frogfs_seekdir_telldir (set_index etc_dh 3) 96
           (mk_dir 72 "etc" [120; 140; 160]) 2 2).
  - split; reflexivity.
  - unfold children_present. simpl. lia.
  - simpl. lia.
  - lia.
  - lia.
Defined.

(** X15: [frogfs_seekdir] returns exactly for the positions of the
    directory: given enough turns it ends for every position up to
    [child_count], and for a position beyond it no number of turns
    suffices. *)
Theorem frogfs_seekdir_returns_iff (dh : frogfs_dh_t) (d : Z)
    (dir : frogfs_entry_t) (loc : Z) :
  handle_on dh d dir ->
  children_present dir ->
  0 <= e_child_count dir ->
  0 <= loc < 2 ^ 16 ->
  (exists (fuel : nat) (dh' : frogfs_dh_t),
     frogfs_seekdir fuel dh loc = Done dh')
  <-> loc <= e_child_count dir.
Proof.
  intros Hon Hch Hcc Hloc. split.
  - intros (fuel & dh' & Hseek).
    destruct (Z_le_gt_dec loc (e_child_count dir)) as [Hle|Hgt]; [exact Hle|].
    exfalso. unfold frogfs_seekdir, frogfs_rewinddir in Hseek.
    rewrite (seekdir_loop_stuck dh d dir Hon Hch loc ltac:(lia) fuel 0
               ltac:(lia)) in Hseek.
    discriminate.
  - intros Hle. exists (Z.to_nat loc), (set_index dh loc).
    unfold frogfs_seekdir, frogfs_rewinddir.
    apply (seekdir_loop_reaches dh d dir Hon Hch loc); lia.
Qed.

Lemma frogfs_seekdir_returns_iff_witness :
  (exists (fuel : nat) (dh' : frogfs_dh_t),
     frogfs_seekdir fuel etc_dh 3 = Done dh')
  <-> 3 <= 3.
Proof.
  apply (frogfs_seekdir_returns_iff etc_dh 96 (mk_dir 72 "etc" [120; 140; 160]) 3).
  - split; reflexivity.
  - unfold children_present. simpl. lia.
  - simpl. lia.
  - lia.
Defined.
